(** * Roboost velocity motor controller

    A shallow embedding of [VelocityController] from
    [roboost/motor_control/motor_controllers/velocity_motor_controller.hpp]
    and of the properties its specification states about [set_target],
    [get_setpoint] and the constructor.

    Conventions of the embedding.
    - A C++ [float] is a rational, or one of the two infinities, or NaN.
      The operations that round in the source round here, to binary32
      with round to nearest, ties to even, subnormals and overflow to
      infinity: the conversion of an integer, the product and the
      quotient.  Comparison, [abs] and the truncation to an integer are
      exact, as they are in binary32.  The sign of zero is not
      modelled.  A value returned by a collaborator is any rational;
      the binary32 values are among them.
    - [int32_t] and [int64_t] values are integers of [Z]; a conversion
      from [float] that the C++ standard leaves undefined (the truncated
      value does not fit, or the operand is not finite) makes the step
      undefined, written [None].
    - [abs] is the floating-point absolute value.
    - The collaborators are template parameters in the source; they are
      type classes here, each instance carrying the collaborator's state.
    - [PWM_RESOLUTION] is defined outside the two source files and is an
      integer parameter of the embedding. *)

From Stdlib Require Import ZArith QArith Qabs Qround Qminmax Lia Lqa List Bool.
From Stdlib Require Qcanon.
Import ListNotations.

(** ** Integer ranges and truncation *)

Module Int.

Definition int32_min : Z := - 2 ^ 31.
Definition int32_max : Z := 2 ^ 31 - 1.
Definition int64_min : Z := - 2 ^ 63.
Definition int64_max : Z := 2 ^ 63 - 1.

Definition in_int32 (z : Z) : bool :=
  ((int32_min <=? z) && (z <=? int32_max))%Z.

Definition in_int64 (z : Z) : bool :=
  ((int64_min <=? z) && (z <=? int64_max))%Z.

(** Truncation toward zero of a rational, as a float-to-integer
    conversion does. *)
Definition trunc (q : Q) : Z := Z.quot (Qnum q) (Zpos (Qden q)).

End Int.

(** ** Floating-point values *)

Inductive float : Type :=
| Fin (q : Q)
| PInf
| NInf
| NaN.

Module Float.

(** Sign of a value: [Lt] negative, [Eq] zero, [Gt] positive; NaN has
    none. *)
Definition sign (x : float) : option comparison :=
  match x with
  | Fin q => Some (Qcompare q 0)
  | PInf => Some Gt
  | NInf => Some Lt
  | NaN => None
  end.

Definition sign_mul (s t : comparison) : comparison :=
  match s, t with
  | Eq, _ | _, Eq => Eq
  | Lt, Lt | Gt, Gt => Gt
  | Lt, Gt | Gt, Lt => Lt
  end.

Definition inf_of_sign (s : comparison) : float :=
  match s with
  | Gt => PInf
  | Lt => NInf
  | Eq => NaN
  end.

(** *** Rounding to binary32 *)

(** Round to the nearest integer, ties to the even one. *)
Definition rne (x : Q) : Z :=
  let f := Qfloor x in
  match Qcompare (x - inject_Z f) (1 # 2) with
  | Lt => f
  | Eq => if Z.even f then f else (f + 1)%Z
  | Gt => (f + 1)%Z
  end.

(** Number of low bits that a non-negative magnitude, counted in units
    of 2^-149 (the smallest subnormal), loses when it is kept on 24
    significant bits. *)
Definition shift (x : Q) : Z := Z.max (Z.log2 (Qfloor x) - 23) 0.

(** A non-negative magnitude in units of 2^-149, rounded to 24
    significant bits. *)
Definition round_grid (x : Q) : Z :=
  (rne (x / inject_Z (2 ^ shift x)) * 2 ^ shift x)%Z.

(** The magnitude of the binary32 value nearest to [x], in units of
    2^-149, the exponent not being bounded above. *)
Definition round_mag (x : Q) : Z :=
  round_grid (Qabs x * inject_Z (2 ^ 149)).

(** The same as a signed rational, in lowest terms. *)
Definition round_finite (x : Q) : Q :=
  Qred ((Z.sgn (Qnum x) * round_mag x) # (2 ^ 149)).

(** The binary32 value of [x]: infinite from 2^128 on (the largest
    finite value is (2^24 - 1) * 2^104). *)
Definition round (x : Q) : float :=
  if (2 ^ 277 <=? round_mag x)%Z then inf_of_sign (Qcompare x 0)
  else Fin (round_finite x).

(** *** Operations *)

(** Conversion of an integer to [float]. *)
Definition of_int (z : Z) : float := round (inject_Z z).

Definition zero : float := of_int 0.

Definition abs (x : float) : float :=
  match x with
  | Fin q => Fin (Qabs q)
  | PInf | NInf => PInf
  | NaN => NaN
  end.

(** The comparison [x < y]; false as soon as one side is NaN. *)
Definition ltb (x y : float) : bool :=
  match x, y with
  | Fin a, Fin b => match Qcompare a b with Lt => true | _ => false end
  | Fin _, PInf => true
  | NInf, Fin _ => true
  | NInf, PInf => true
  | _, _ => false
  end.

Definition mul (x y : float) : float :=
  match x, y with
  | Fin a, Fin b => round (a * b)
  | _, _ =>
      match sign x, sign y with
      | Some s, Some t => inf_of_sign (sign_mul s t)
      | _, _ => NaN
      end
  end.

Definition div (x y : float) : float :=
  match x, y with
  | NaN, _ | _, NaN => NaN
  | Fin a, Fin b =>
      if Qeq_bool b 0 then inf_of_sign (Qcompare a 0) else round (a / b)
  | Fin _, _ => zero
  | _, Fin b =>
      match sign x with
      | Some s => inf_of_sign (sign_mul s (if Qeq_bool b 0 then Gt else Qcompare b 0))
      | None => NaN
      end
  | _, _ => NaN
  end.

(** [static_cast<int32_t>] and the implicit conversion to [int64_t]. *)
Definition to_int32 (x : float) : option Z :=
  match x with
  | Fin q => if Int.in_int32 (Int.trunc q) then Some (Int.trunc q) else None
  | _ => None
  end.

Definition to_int64 (x : float) : option Z :=
  match x with
  | Fin q => if Int.in_int64 (Int.trunc q) then Some (Int.trunc q) else None
  | _ => None
  end.

(** Sign as an integer, for comparison with [Z.sgn] of a command. *)
Definition sgn (x : float) : Z :=
  match sign x with
  | Some Gt => 1
  | Some Lt => -1
  | _ => 0
  end.

End Float.

Arguments Float.round : simpl never.
Arguments Float.of_int : simpl never.
Arguments Float.mul : simpl never.
Arguments Float.div : simpl never.

(** ** Collaborators

    The template parameters of [VelocityController].  Each operation
    takes the collaborator's state and returns the new one next to its
    result. *)

Class Encoder (E : Type) : Type := {
  encoder_update : E -> E;
  get_velocity_radians_per_second : E -> float
}.

Class Filter (F : Type) : Type := {
  filter_update : F -> float -> float * F
}.

Class RateLimitingFilter (R : Type) : Type := {
  rate_limiting_update : R -> float -> float -> float * R
}.

Class PIDController (P : Type) : Type := {
  pid_update : P -> float -> float -> float * P
}.

Class MotorDriver (D : Type) : Type := {
  set_motor_control : D -> Z -> D
}.

(** Calls made on the collaborators, with the values passed and
    returned.  The controller's record keeps them in the order they were
    made; it is the only field that is not in the source. *)
Inductive Call : Type :=
| EncoderUpdate
| EncoderGetVelocity (result : float)
| InputFilterUpdate (x result : float)
| RateLimitingFilterUpdate (desired input result : float)
| PidUpdate (setpoint input result : float)
| OutputFilterUpdate (x result : float)
| SetMotorControl (motor_control_value : Z).

(** ** The controller *)

Section Controller.

Context {MotorDriverType EncoderType ControllerType : Type}.
Context {InputFilterType OutputFilterType RateLimitingFilterType : Type}.
Context `{MotorDriver MotorDriverType} `{Encoder EncoderType}.
Context `{PIDController ControllerType}.
Context `{Filter InputFilterType} `{Filter OutputFilterType}.
Context `{RateLimitingFilter RateLimitingFilterType}.

Variable PWM_RESOLUTION : Z.

Record VelocityController : Type := MkVelocityController {
  motor_driver_ : MotorDriverType;
  encoder_ : EncoderType;
  pid_ : ControllerType;
  input_filter_ : InputFilterType;
  output_filter_ : OutputFilterType;
  rate_limiting_filter_ : RateLimitingFilterType;
  deadband_threshold_ : Z;
  minimum_output_ : Z;
  current_setpoint_ : Z;
  calls_ : list Call
}.

(** The constructor: stores its arguments and a zero setpoint. *)
Definition new (motor_driver : MotorDriverType) (encoder : EncoderType)
  (pid_controller : ControllerType) (input_filter : InputFilterType)
  (output_filter : OutputFilterType)
  (rate_limiting_filter : RateLimitingFilterType)
  (deadband_threshold minimum_output : Z) : VelocityController :=
  {| motor_driver_ := motor_driver;
     encoder_ := encoder;
     pid_ := pid_controller;
     input_filter_ := input_filter;
     output_filter_ := output_filter;
     rate_limiting_filter_ := rate_limiting_filter;
     deadband_threshold_ := deadband_threshold;
     minimum_output_ := minimum_output;
     current_setpoint_ := 0;
     calls_ := [] |}.

(** *** A state monad with undefined behaviour *)

Definition M (A : Type) : Type :=
  VelocityController -> option (A * VelocityController).

Definition ret {A : Type} (a : A) : M A := fun c => Some (a, c).

Definition bind {A B : Type} (m : M A) (k : A -> M B) : M B :=
  fun c => match m c with
           | Some (a, c') => k a c'
           | None => None
           end.

Definition undefined_or {A : Type} (o : option A) : M A :=
  fun c => match o with
           | Some a => Some (a, c)
           | None => None
           end.

Definition read {A : Type} (field : VelocityController -> A) : M A :=
  fun c => Some (field c, c).

Definition record_call (e : Call) : M unit :=
  fun c =>
    Some (tt, {| motor_driver_ := motor_driver_ c;
                 encoder_ := encoder_ c;
                 pid_ := pid_ c;
                 input_filter_ := input_filter_ c;
                 output_filter_ := output_filter_ c;
                 rate_limiting_filter_ := rate_limiting_filter_ c;
                 deadband_threshold_ := deadband_threshold_ c;
                 minimum_output_ := minimum_output_ c;
                 current_setpoint_ := current_setpoint_ c;
                 calls_ := calls_ c ++ [e] |}).

Local Notation "x <- m ;; k" := (bind m (fun x => k))
  (at level 61, m at next level, right associativity).
Local Notation "m ;; k" := (bind m (fun _ => k))
  (at level 61, right associativity).

(** *** Calls on the collaborators *)

Definition encoder_update_ : M unit :=
  (fun c =>
     Some (tt, {| motor_driver_ := motor_driver_ c;
                  encoder_ := encoder_update (encoder_ c);
                  pid_ := pid_ c;
                  input_filter_ := input_filter_ c;
                  output_filter_ := output_filter_ c;
                  rate_limiting_filter_ := rate_limiting_filter_ c;
                  deadband_threshold_ := deadband_threshold_ c;
                  minimum_output_ := minimum_output_ c;
                  current_setpoint_ := current_setpoint_ c;
                  calls_ := calls_ c |})) ;;
  record_call EncoderUpdate.

Definition encoder_get_velocity_ : M float :=
  y <- read (fun c => get_velocity_radians_per_second (encoder_ c)) ;;
  record_call (EncoderGetVelocity y) ;;
  ret y.

Definition input_filter_update_ (x : float) : M float :=
  y <- (fun c =>
          let (y, f) := filter_update (input_filter_ c) x in
          Some (y, {| motor_driver_ := motor_driver_ c;
                      encoder_ := encoder_ c;
                      pid_ := pid_ c;
                      input_filter_ := f;
                      output_filter_ := output_filter_ c;
                      rate_limiting_filter_ := rate_limiting_filter_ c;
                      deadband_threshold_ := deadband_threshold_ c;
                      minimum_output_ := minimum_output_ c;
                      current_setpoint_ := current_setpoint_ c;
                      calls_ := calls_ c |})) ;;
  record_call (InputFilterUpdate x y) ;;
  ret y.

Definition rate_limiting_filter_update_ (desired input : float) : M float :=
  r <- (fun c =>
          let (r, f) :=
            rate_limiting_update (rate_limiting_filter_ c) desired input in
          Some (r, {| motor_driver_ := motor_driver_ c;
                      encoder_ := encoder_ c;
                      pid_ := pid_ c;
                      input_filter_ := input_filter_ c;
                      output_filter_ := output_filter_ c;
                      rate_limiting_filter_ := f;
                      deadband_threshold_ := deadband_threshold_ c;
                      minimum_output_ := minimum_output_ c;
                      current_setpoint_ := current_setpoint_ c;
                      calls_ := calls_ c |})) ;;
  record_call (RateLimitingFilterUpdate desired input r) ;;
  ret r.

Definition pid_update_ (setpoint input : float) : M float :=
  u <- (fun c =>
          let (u, p) := pid_update (pid_ c) setpoint input in
          Some (u, {| motor_driver_ := motor_driver_ c;
                      encoder_ := encoder_ c;
                      pid_ := p;
                      input_filter_ := input_filter_ c;
                      output_filter_ := output_filter_ c;
                      rate_limiting_filter_ := rate_limiting_filter_ c;
                      deadband_threshold_ := deadband_threshold_ c;
                      minimum_output_ := minimum_output_ c;
                      current_setpoint_ := current_setpoint_ c;
                      calls_ := calls_ c |})) ;;
  record_call (PidUpdate setpoint input u) ;;
  ret u.

Definition output_filter_update_ (x : float) : M float :=
  y <- (fun c =>
          let (y, f) := filter_update (output_filter_ c) x in
          Some (y, {| motor_driver_ := motor_driver_ c;
                      encoder_ := encoder_ c;
                      pid_ := pid_ c;
                      input_filter_ := input_filter_ c;
                      output_filter_ := f;
                      rate_limiting_filter_ := rate_limiting_filter_ c;
                      deadband_threshold_ := deadband_threshold_ c;
                      minimum_output_ := minimum_output_ c;
                      current_setpoint_ := current_setpoint_ c;
                      calls_ := calls_ c |})) ;;
  record_call (OutputFilterUpdate x y) ;;
  ret y.

Definition motor_driver_set_motor_control_ (v : Z) : M unit :=
  (fun c =>
     Some (tt, {| motor_driver_ := set_motor_control (motor_driver_ c) v;
                  encoder_ := encoder_ c;
                  pid_ := pid_ c;
                  input_filter_ := input_filter_ c;
                  output_filter_ := output_filter_ c;
                  rate_limiting_filter_ := rate_limiting_filter_ c;
                  deadband_threshold_ := deadband_threshold_ c;
                  minimum_output_ := minimum_output_ c;
                  current_setpoint_ := current_setpoint_ c;
                  calls_ := calls_ c |})) ;;
  record_call (SetMotorControl v).

(** [current_setpoint_ = r]: the field is an [int64_t], the value a
    [float]. *)
Definition assign_current_setpoint (r : float) : M unit :=
  z <- undefined_or (Float.to_int64 r) ;;
  fun c =>
    Some (tt, {| motor_driver_ := motor_driver_ c;
                 encoder_ := encoder_ c;
                 pid_ := pid_ c;
                 input_filter_ := input_filter_ c;
                 output_filter_ := output_filter_ c;
                 rate_limiting_filter_ := rate_limiting_filter_ c;
                 deadband_threshold_ := deadband_threshold_ c;
                 minimum_output_ := minimum_output_ c;
                 current_setpoint_ := z;
                 calls_ := calls_ c |}).

(** *** The control law *)

(** The adjustment of the output for deadband and minimum output. *)
Definition adjust_output (deadband_threshold minimum_output : Z)
  (output : float) : float :=
  if Float.ltb (Float.abs output) (Float.of_int deadband_threshold) then
    Float.of_int 0
  else if Float.ltb (Float.abs output) (Float.of_int minimum_output) then
    Float.mul (Float.of_int minimum_output)
              (Float.div output (Float.abs output))
  else output.

(** The scaling to the integer value handed to the driver. *)
Definition scale_output (output : float) : option Z :=
  Float.to_int32 (Float.mul output (Float.of_int PWM_RESOLUTION)).

Definition set_target (desired_rotation_speed : float) : M unit :=
  encoder_update_ ;;
  input <- encoder_get_velocity_ ;;
  input <- input_filter_update_ input ;;
  r <- rate_limiting_filter_update_ desired_rotation_speed input ;;
  assign_current_setpoint r ;;
  current_setpoint <- read current_setpoint_ ;;
  output <- pid_update_ (Float.of_int current_setpoint) input ;;
  output <- output_filter_update_ output ;;
  deadband_threshold <- read deadband_threshold_ ;;
  minimum_output <- read minimum_output_ ;;
  let output := adjust_output deadband_threshold minimum_output output in
  motor_control_value <- undefined_or (scale_output output) ;;
  motor_driver_set_motor_control_ motor_control_value.

Definition get_measurement (c : VelocityController) : option Z :=
  Float.to_int64 (get_velocity_radians_per_second (encoder_ c)).

Definition get_setpoint (c : VelocityController) : Z := current_setpoint_ c.

(** *** Observations used by the properties *)

(** The first part of [set_target], up to and including the output
    filter: its result is the value the adjustment starts from. *)
Definition filtered_output (desired_rotation_speed : float) : M float :=
  encoder_update_ ;;
  input <- encoder_get_velocity_ ;;
  input <- input_filter_update_ input ;;
  r <- rate_limiting_filter_update_ desired_rotation_speed input ;;
  assign_current_setpoint r ;;
  current_setpoint <- read current_setpoint_ ;;
  output <- pid_update_ (Float.of_int current_setpoint) input ;;
  output_filter_update_ output.

(** The output-filtered PID output of a step, when the step gets that
    far. *)
Definition step_output (desired_rotation_speed : float)
  (c : VelocityController) : option float :=
  match filtered_output desired_rotation_speed c with
  | Some (u, _) => Some u
  | None => None
  end.

(** The value of the most recent call, when it is a write to the
    driver. *)
Definition last_command (c : VelocityController) : option Z :=
  match last (calls_ c) EncoderUpdate with
  | SetMotorControl v => Some v
  | _ => None
  end.

(** The command a step writes, if the step is defined. *)
Definition command_of (r : option (unit * VelocityController)) : option Z :=
  match r with
  | Some (_, c) => last_command c
  | None => None
  end.

(** Same collaborators (other than the driver) and same thresholds. *)
Definition same_inputs (c1 c2 : VelocityController) : Prop :=
  encoder_ c1 = encoder_ c2 /\
  pid_ c1 = pid_ c2 /\
  input_filter_ c1 = input_filter_ c2 /\
  output_filter_ c1 = output_filter_ c2 /\
  rate_limiting_filter_ c1 = rate_limiting_filter_ c2 /\
  deadband_threshold_ c1 = deadband_threshold_ c2 /\
  minimum_output_ c1 = minimum_output_ c2.

End Controller.

Arguments VelocityController : clear implicits.

(** ** Collaborators of the specification's scenarios *)

(** An encoder that reports the same velocity at every sample. *)
Record FixedEncoder : Type := { fixed_velocity : float }.

#[export] Instance FixedEncoder_Encoder : Encoder FixedEncoder := {
  encoder_update e := e;
  get_velocity_radians_per_second := fixed_velocity
}.

(** The pass-through filter. *)
Inductive IdentityFilter : Type := identity_filter.

#[export] Instance IdentityFilter_Filter : Filter IdentityFilter := {
  filter_update f x := (x, f)
}.

(** The rate limiter that returns [desired]. *)
Inductive IdentityRateLimiter : Type := identity_rate_limiter.

#[export] Instance IdentityRateLimiter_RateLimitingFilter :
  RateLimitingFilter IdentityRateLimiter := {
  rate_limiting_update f desired _ := (desired, f)
}.

(** The rate limiter of scenario S7: [min(desired, measurement + 0.1)]. *)
Inductive StepRateLimiter : Type := step_rate_limiter.

#[export] Instance StepRateLimiter_RateLimitingFilter :
  RateLimitingFilter StepRateLimiter := {
  rate_limiting_update f desired measurement :=
    (match desired, measurement with
     | Fin d, Fin m => Fin (Qmin d (m + (1 # 10)))
     | _, _ => NaN
     end, f)
}.

(** A PID whose output is the same at every step. *)
Record ConstantPid : Type := { constant_output : float }.

#[export] Instance ConstantPid_PIDController : PIDController ConstantPid := {
  pid_update p _ _ := (constant_output p, p)
}.

(** A driver that keeps the commands it received, oldest first. *)
Record RecordingDriver : Type := { received : list Z }.

#[export] Instance RecordingDriver_MotorDriver : MotorDriver RecordingDriver := {
  set_motor_control d v := {| received := received d ++ [v] |}
}.

(** The controller of the end-to-end scenarios: measurement 0, identity
    filters, identity rate limiter, PID output [u]. *)
Definition scenario (u : float) (deadband_threshold minimum_output : Z) :
  VelocityController RecordingDriver FixedEncoder ConstantPid
                     IdentityFilter IdentityFilter IdentityRateLimiter :=
  new {| received := [] |} {| fixed_velocity := Float.zero |}
      {| constant_output := u |} identity_filter identity_filter
      identity_rate_limiter deadband_threshold minimum_output.

(** The controller of scenario S7: as above with the rate limiter
    [min(desired, measurement + 0.1)]. *)
Definition scenario_S7 (u : float) (deadband_threshold minimum_output : Z) :
  VelocityController RecordingDriver FixedEncoder ConstantPid
                     IdentityFilter IdentityFilter StepRateLimiter :=
  new {| received := [] |} {| fixed_velocity := Float.zero |}
      {| constant_output := u |} identity_filter identity_filter
      step_rate_limiter deadband_threshold minimum_output.

(** Scenario S1 run with deadband 0 and minimum 0, after one
    [set_target(1.0)] with [PWM_RESOLUTION] 4096. *)
Definition scenario_after_step :
  VelocityController RecordingDriver FixedEncoder ConstantPid
                     IdentityFilter IdentityFilter IdentityRateLimiter :=
  {| motor_driver_ := {| received := [2048%Z] |};
     encoder_ := {| fixed_velocity := Float.zero |};
     pid_ := {| constant_output := Fin (1 # 2) |};
     input_filter_ := identity_filter;
     output_filter_ := identity_filter;
     rate_limiting_filter_ := identity_rate_limiter;
     deadband_threshold_ := 0;
     minimum_output_ := 0;
     current_setpoint_ := 1;
     calls_ :=
       [EncoderUpdate; EncoderGetVelocity (Fin 0);
        InputFilterUpdate (Fin 0) (Fin 0);
        RateLimitingFilterUpdate (Fin 1) (Fin 0) (Fin 1);
        PidUpdate (Fin 1) (Fin 0) (Fin (1 # 2));
        OutputFilterUpdate (Fin (1 # 2)) (Fin (1 # 2));
        SetMotorControl 2048] |}.

(** ** Properties as the specification words them *)

Section Stated.

Context {MotorDriverType EncoderType ControllerType : Type}.
Context {InputFilterType OutputFilterType RateLimitingFilterType : Type}.
Context `{MotorDriver MotorDriverType} `{Encoder EncoderType}.
Context `{PIDController ControllerType}.
Context `{Filter InputFilterType} `{Filter OutputFilterType}.
Context `{RateLimitingFilter RateLimitingFilterType}.

Variable PWM_MAX : Z.

Let controller : Type :=
  VelocityController MotorDriverType EncoderType ControllerType
                     InputFilterType OutputFilterType RateLimitingFilterType.

(** The configuration invariant of the data model. *)
Definition valid_configuration (deadband_threshold minimum_output : Z) : bool :=
  ((0 <=? deadband_threshold) && (deadband_threshold <=? minimum_output)
   && (minimum_output <=? PWM_MAX))%Z.

(** Construction as the specification words it (error handling,
    "configuration error"): a configuration that violates the invariant
    is detected and produces no controller.  The source's constructor is
    [new]. *)
Definition checked_new (motor_driver : MotorDriverType)
  (encoder : EncoderType) (pid_controller : ControllerType)
  (input_filter : InputFilterType) (output_filter : OutputFilterType)
  (rate_limiting_filter : RateLimitingFilterType)
  (deadband_threshold minimum_output : Z) : option controller :=
  if valid_configuration deadband_threshold minimum_output then
    Some (new motor_driver encoder pid_controller input_filter output_filter
              rate_limiting_filter deadband_threshold minimum_output)
  else None.

(** Construction as the source has it never fails; the claim is that it
    is the checked construction. *)
Definition construction_is_checked (motor_driver : MotorDriverType)
  (encoder : EncoderType) (pid_controller : ControllerType)
  (input_filter : InputFilterType) (output_filter : OutputFilterType)
  (rate_limiting_filter : RateLimitingFilterType)
  (deadband_threshold minimum_output : Z) : Prop :=
  Some (new motor_driver encoder pid_controller input_filter output_filter
            rate_limiting_filter deadband_threshold minimum_output) =
  checked_new motor_driver encoder pid_controller input_filter output_filter
              rate_limiting_filter deadband_threshold minimum_output.

(** "The command written is 0 iff |u * PWM_MAX| < deadband_threshold",
    where [u] is the output-filtered PID output of the step. *)
Definition deadband_on_scaled_command (desired : float) (c : controller) :
  Prop :=
  forall u : Q,
    step_output desired c = Some (Fin u) ->
    (command_of (set_target PWM_MAX desired c) = Some 0%Z <->
     Qabs (u * inject_Z PWM_MAX) < inject_Z (deadband_threshold_ c)).


(** "The command written satisfies |cmd| <= PWM_MAX". *)
Definition command_within_range (desired : float) (c : controller) : Prop :=
  forall cmd : Z,
    command_of (set_target PWM_MAX desired c) = Some cmd ->
    (Z.abs cmd <= PWM_MAX)%Z.

End Stated.

(** ** Successive steps *)

(** The commands among a list of calls, oldest first. *)
Fixpoint driver_writes (l : list Call) : list Z :=
  match l with
  | [] => []
  | SetMotorControl v :: l' => v :: driver_writes l'
  | _ :: l' => driver_writes l'
  end.

Section Loop.

Context {MotorDriverType EncoderType ControllerType : Type}.
Context {InputFilterType OutputFilterType RateLimitingFilterType : Type}.
Context `{MotorDriver MotorDriverType} `{Encoder EncoderType}.
Context `{PIDController ControllerType}.
Context `{Filter InputFilterType} `{Filter OutputFilterType}.
Context `{RateLimitingFilter RateLimitingFilterType}.

Variable PWM_RESOLUTION : Z.

(** [set_target] invoked once for each desired speed of the list, as a
    periodic caller does. *)
Fixpoint set_targets (ds : list float) :
  M (MotorDriverType := MotorDriverType) (EncoderType := EncoderType)
    (ControllerType := ControllerType) (InputFilterType := InputFilterType)
    (OutputFilterType := OutputFilterType)
    (RateLimitingFilterType := RateLimitingFilterType) unit :=
  match ds with
  | [] => ret tt
  | d :: ds' =>
      bind (set_target PWM_RESOLUTION d) (fun _ => set_targets ds')
  end.

End Loop.

(** *** Further scenarios *)

(** [scenario (1/2) 0 1] after the steps [set_target(1.0)],
    [set_target(2.0)], [set_target(2.5)] with [PWM_RESOLUTION] 4096. *)
Definition scenario_after_three_steps :
  VelocityController RecordingDriver FixedEncoder ConstantPid
                     IdentityFilter IdentityFilter IdentityRateLimiter :=
  Eval vm_compute in
    match set_targets 4096 [Fin 1; Fin 2; Fin (5 # 2)]
                      (scenario (Fin (1 # 2)) 0 1) with
    | Some (_, c) => c
    | None => scenario (Fin (1 # 2)) 0 1
    end.

(** The same after the first two steps only. *)
Definition scenario_after_two_steps :
  VelocityController RecordingDriver FixedEncoder ConstantPid
                     IdentityFilter IdentityFilter IdentityRateLimiter :=
  Eval vm_compute in
    match set_targets 4096 [Fin 1; Fin 2] (scenario (Fin (1 # 2)) 0 1) with
    | Some (_, c) => c
    | None => scenario (Fin (1 # 2)) 0 1
    end.

(** A fresh controller whose encoder reports -7/2. *)
Definition scenario_reverse :
  VelocityController RecordingDriver FixedEncoder ConstantPid
                     IdentityFilter IdentityFilter IdentityRateLimiter :=
  new {| received := [] |} {| fixed_velocity := Fin (- 7 # 2) |}
      {| constant_output := Float.zero |} identity_filter identity_filter
      identity_rate_limiter 0 0.

(** *** A finite magnitude against a threshold *)

(** [|x| < t] for a threshold [t] that may be infinite. *)
Definition below (a : Q) (t : float) : Prop :=
  match t with
  | Fin b => a < b
  | PInf => True
  | NInf | NaN => False
  end.

(** ** Truncation toward zero *)

Lemma trunc_abs (q : Q) : Z.abs (Int.trunc q) = Qfloor (Qabs q).
Proof.
  destruct q as [n d]. unfold Int.trunc, Qabs, Qfloor. simpl.
  rewrite <- Z.quot_abs by discriminate.
  apply Z.quot_div_nonneg; lia.
Qed.

Lemma trunc_abs_le (q : Q) (k : Z) :
  Qabs q <= inject_Z k -> (Z.abs (Int.trunc q) <= k)%Z.
Proof.
  intros Hq. rewrite trunc_abs, <- (Qfloor_Z k).
  now apply Qfloor_resp_le.
Qed.


Lemma trunc_zero (q : Q) : Qabs q < 1 -> Int.trunc q = 0%Z.
Proof.
  intros Hq.
  assert (Hle : (Qfloor (Qabs q) <= 0)%Z).
  { assert (Hlt : (Qfloor (Qabs q) < 1)%Z).
    { rewrite Zlt_Qlt. eapply Qle_lt_trans; [apply Qfloor_le | exact Hq]. }
    lia. }
  rewrite <- trunc_abs in Hle. lia.
Qed.

Lemma trunc_pos (q : Q) : (0 < Int.trunc q)%Z -> 0 < q.
Proof.
  destruct q as [n d]. unfold Int.trunc, Qlt. simpl. intros Ht.
  destruct (Z_lt_le_dec 0 n) as [Hn | Hn]; [lia |].
  pose proof (Z.quot_le_upper_bound n (Z.pos d) 0) as Hq.
  assert (Z.quot n (Z.pos d) <= 0)%Z; [| lia].
  rewrite <- (Z.opp_involutive n), Z.quot_opp_l by discriminate.
  assert (0 <= Z.quot (- n) (Z.pos d))%Z by (apply Z.quot_pos; lia).
  lia.
Qed.

Lemma trunc_opp (q : Q) : Int.trunc (- q) = (- Int.trunc q)%Z.
Proof.
  destruct q as [n d]. unfold Int.trunc. simpl.
  now rewrite Z.quot_opp_l by discriminate.
Qed.

Lemma trunc_neg (q : Q) : (Int.trunc q < 0)%Z -> q < 0.
Proof.
  intros Ht. assert (Hp : 0 < - q).
  { apply trunc_pos. rewrite trunc_opp. lia. }
  lra.
Qed.

Lemma trunc_inject_Z (z : Z) : Int.trunc (inject_Z z) = z.
Proof. unfold Int.trunc. simpl. apply Z.quot_1_r. Qed.

Lemma ltb_Fin (a b : Q) : Float.ltb (Fin a) (Fin b) = true <-> a < b.
Proof.
  simpl. rewrite Qlt_alt. destruct (a ?= b); intuition congruence.
Qed.

Lemma ltb_Fin_false (a b : Q) : Float.ltb (Fin a) (Fin b) = false <-> b <= a.
Proof.
  rewrite <- not_true_iff_false, ltb_Fin. split; intros Hab.
  - now apply Qnot_lt_le.
  - now apply Qle_not_lt.
Qed.

(** ** More on truncation *)

Lemma trunc_nonneg (q : Q) : 0 <= q -> Int.trunc q = Qfloor q.
Proof.
  intros Hq. rewrite <- (Qabs_pos q Hq) at 2. rewrite <- trunc_abs.
  symmetry. apply Z.abs_eq.
  destruct (Z_lt_le_dec (Int.trunc q) 0) as [Hn | Hp]; [| exact Hp].
  apply trunc_neg in Hn. lra.
Qed.

Lemma trunc_comp (q r : Q) : q == r -> Int.trunc q = Int.trunc r.
Proof.
  intros Hqr.
  assert (Habs : Z.abs (Int.trunc q) = Z.abs (Int.trunc r)).
  { rewrite !trunc_abs. apply Qfloor_comp. now rewrite Hqr. }
  destruct (Z.lt_trichotomy (Int.trunc q) 0) as [Hq | [Hq | Hq]];
    destruct (Z.lt_trichotomy (Int.trunc r) 0) as [Hr | [Hr | Hr]];
    try lia; exfalso.
  - apply trunc_neg in Hq. apply trunc_pos in Hr. lra.
  - apply trunc_pos in Hq. apply trunc_neg in Hr. lra.
Qed.

Lemma trunc_abs_bounds (q : Q) :
  inject_Z (Z.abs (Int.trunc q)) <= Qabs q /\
  Qabs q < inject_Z (Z.abs (Int.trunc q) + 1).
Proof.
  rewrite trunc_abs. split; [apply Qfloor_le | apply Qlt_floor].
Qed.

Lemma trunc_zero_iff (q : Q) : Int.trunc q = 0%Z <-> Qabs q < 1.
Proof.
  split; [| apply trunc_zero].
  intros Hz. destruct (trunc_abs_bounds q) as [_ Hlt].
  rewrite Hz in Hlt. exact Hlt.
Qed.

Lemma trunc_le_mono (q r : Q) : q <= r -> (Int.trunc q <= Int.trunc r)%Z.
Proof.
  intros Hqr.
  destruct (Qlt_le_dec q 0) as [Hq | Hq]; destruct (Qlt_le_dec r 0) as [Hr | Hr].
  - assert (Hle : (Int.trunc (- r) <= Int.trunc (- q))%Z).
    { rewrite !trunc_nonneg by lra. apply Qfloor_resp_le. lra. }
    rewrite !trunc_opp in Hle. lia.
  - assert (Hn : (Int.trunc q <= 0)%Z).
    { destruct (Z_lt_le_dec 0 (Int.trunc q)) as [Hp | Hp]; [| exact Hp].
      apply trunc_pos in Hp. lra. }
    assert (Hp : (0 <= Int.trunc r)%Z).
    { rewrite trunc_nonneg by exact Hr. rewrite <- (Qfloor_Z 0).
      now apply Qfloor_resp_le. }
    lia.
  - lra.
  - rewrite !trunc_nonneg by lra. now apply Qfloor_resp_le.
Qed.

Lemma to_int32_comp (a b : Q) :
  a == b -> Float.to_int32 (Fin a) = Float.to_int32 (Fin b).
Proof.
  intros Hab. unfold Float.to_int32. now rewrite (trunc_comp a b Hab).
Qed.

Lemma to_int64_Some (x : float) (z : Z) :
  Float.to_int64 x = Some z ->
  exists q, x = Fin q /\ z = Int.trunc q /\ Int.in_int64 z = true.
Proof.
  destruct x as [q | | |]; try discriminate. simpl.
  destruct (Int.in_int64 (Int.trunc q)) eqn:Hr; [| discriminate].
  intros Hz. injection Hz as <-. now exists q.
Qed.

(** ** Rounding to the nearest integer *)

Lemma rne_cases (x : Q) :
  (Float.rne x = Qfloor x /\ x - inject_Z (Qfloor x) <= 1 # 2) \/
  (Float.rne x = (Qfloor x + 1)%Z /\ 1 # 2 <= x - inject_Z (Qfloor x)).
Proof.
  unfold Float.rne. cbv zeta.
  destruct (Qcompare_spec (x - inject_Z (Qfloor x)) (1 # 2)) as [He | Hl | Hg].
  - destruct (Z.even (Qfloor x)); [left | right]; split; try reflexivity;
      rewrite He; apply Qle_refl.
  - left. split; [reflexivity | now apply Qlt_le_weak].
  - right. split; [reflexivity | now apply Qlt_le_weak].
Qed.

Lemma rne_comp (x y : Q) : x == y -> Float.rne x = Float.rne y.
Proof.
  intros Hxy. unfold Float.rne. cbv zeta.
  rewrite (Qfloor_comp x y Hxy).
  assert (He : x - inject_Z (Qfloor y) == y - inject_Z (Qfloor y))
    by (rewrite Hxy; reflexivity).
  now rewrite (Qcompare_comp _ _ He (1 # 2) (1 # 2) (Qeq_refl _)).
Qed.

Lemma rne_Z (k : Z) : Float.rne (inject_Z k) = k.
Proof.
  unfold Float.rne. cbv zeta. rewrite Qfloor_Z.
  assert (He : inject_Z k - inject_Z k == 0) by ring.
  rewrite (Qcompare_comp _ _ He (1 # 2) (1 # 2) (Qeq_refl _)).
  reflexivity.
Qed.

Lemma rne_le (x y : Q) : x <= y -> (Float.rne x <= Float.rne y)%Z.
Proof.
  intros Hxy. pose proof (Qfloor_resp_le x y Hxy) as Hf.
  destruct (Z_lt_le_dec (Qfloor x) (Qfloor y)) as [Hlt | Hge].
  - destruct (rne_cases x) as [[-> _] | [-> _]];
      destruct (rne_cases y) as [[-> _] | [-> _]]; lia.
  - assert (Heq : Qfloor x = Qfloor y) by lia.
    unfold Float.rne. cbv zeta. rewrite Heq.
    destruct (Qcompare_spec (x - inject_Z (Qfloor y)) (1 # 2)) as [H1 | H1 | H1];
      destruct (Qcompare_spec (y - inject_Z (Qfloor y)) (1 # 2)) as [H2 | H2 | H2];
      try (destruct (Z.even (Qfloor y))); try lia; exfalso; lra.
Qed.

Lemma rne_nonneg (x : Q) : 0 <= x -> (0 <= Float.rne x)%Z.
Proof.
  intros Hx. rewrite <- (rne_Z 0). now apply rne_le.
Qed.

(** ** Rounding on the grid of multiples of 2^shift *)

Lemma pow2_pos (s : Z) : (0 <= s)%Z -> 0 < inject_Z (2 ^ s).
Proof.
  intros Hs. change 0 with (inject_Z 0). rewrite <- Zlt_Qlt.
  apply Z.pow_pos_nonneg; lia.
Qed.

Lemma shift_nonneg (x : Q) : (0 <= Float.shift x)%Z.
Proof. unfold Float.shift. lia. Qed.

Lemma shift_comp (x y : Q) : x == y -> Float.shift x = Float.shift y.
Proof. intros Hxy. unfold Float.shift. now rewrite (Qfloor_comp x y Hxy). Qed.

Lemma shift_le (x y : Q) : x <= y -> (Float.shift x <= Float.shift y)%Z.
Proof.
  intros Hxy. unfold Float.shift.
  pose proof (Z.log2_le_mono _ _ (Qfloor_resp_le x y Hxy)). lia.
Qed.

Lemma round_grid_comp (x y : Q) :
  x == y -> Float.round_grid x = Float.round_grid y.
Proof.
  intros Hxy. unfold Float.round_grid. rewrite (shift_comp x y Hxy).
  f_equal. apply rne_comp. now rewrite Hxy.
Qed.

Lemma round_grid_nonneg (x : Q) : 0 <= x -> (0 <= Float.round_grid x)%Z.
Proof.
  intros Hx. unfold Float.round_grid.
  pose proof (shift_nonneg x) as Hs. pose proof (pow2_pos _ Hs) as Hp.
  apply Z.mul_nonneg_nonneg; [| apply Z.pow_nonneg; lia].
  apply rne_nonneg. apply Qle_shift_div_l; [exact Hp | lra].
Qed.

(** A multiple of the grid step is its own rounding. *)
Lemma rne_grid (k s : Z) :
  (0 <= s)%Z ->
  (Float.rne (inject_Z (k * 2 ^ s) / inject_Z (2 ^ s)) * 2 ^ s = k * 2 ^ s)%Z.
Proof.
  intros Hs. pose proof (pow2_pos s Hs) as Hp.
  assert (He : inject_Z (k * 2 ^ s) / inject_Z (2 ^ s) == inject_Z k).
  { rewrite inject_Z_mult. field. lra. }
  now rewrite (rne_comp _ _ He), rne_Z.
Qed.

(** Below a power of two of the grid, the rounding stays below it. *)
Lemma round_grid_below (x : Q) (b : Z) :
  0 <= x -> (Float.shift x <= b)%Z -> x <= inject_Z (2 ^ b) ->
  (Float.round_grid x <= 2 ^ b)%Z.
Proof.
  intros Hx Hb Hxb. unfold Float.round_grid.
  pose proof (shift_nonneg x) as Hs. pose proof (pow2_pos _ Hs) as Hp.
  assert (Hsplit : (2 ^ b = 2 ^ (b - Float.shift x) * 2 ^ Float.shift x)%Z).
  { rewrite <- Z.pow_add_r by lia. f_equal. lia. }
  pose proof (rne_grid (2 ^ (b - Float.shift x)) _ Hs) as Hg.
  rewrite <- Hsplit in Hg. rewrite <- Hg.
  apply Z.mul_le_mono_nonneg_r; [apply Z.pow_nonneg; lia |].
  apply rne_le.
  apply Qmult_le_compat_r; [exact Hxb |].
  apply Qlt_le_weak, Qinv_lt_0_compat, Hp.
Qed.

Lemma floor_lt_pow2 (x : Q) :
  0 <= x -> inject_Z (Qfloor x) < inject_Z (2 ^ (Float.shift x + 24)).
Proof.
  intros Hx. rewrite <- Zlt_Qlt.
  assert (Hf : (0 <= Qfloor x)%Z).
  { rewrite <- (Qfloor_Z 0). now apply Qfloor_resp_le. }
  unfold Float.shift.
  destruct (Z.eq_dec (Qfloor x) 0) as [-> | Hnz].
  - apply Z.pow_pos_nonneg; cbn; lia.
  - assert (Hpos : (0 < Qfloor x)%Z) by lia.
    apply Z.log2_lt_pow2; [exact Hpos | lia].
Qed.

Lemma lt_pow2 (x : Q) :
  0 <= x -> x < inject_Z (2 ^ (Float.shift x + 24)).
Proof.
  intros Hx. pose proof (floor_lt_pow2 x Hx) as Hf.
  rewrite <- Zlt_Qlt in Hf.
  apply Qlt_le_trans with (inject_Z (Qfloor x + 1)); [apply Qlt_floor |].
  rewrite <- Zle_Qle. lia.
Qed.

Lemma round_grid_le (x y : Q) :
  0 <= x -> x <= y -> (Float.round_grid x <= Float.round_grid y)%Z.
Proof.
  intros Hx Hxy. pose proof (shift_le x y Hxy) as Hs.
  pose proof (shift_nonneg x) as Hsx. pose proof (shift_nonneg y) as Hsy.
  destruct (Z_lt_le_dec (Float.shift x) (Float.shift y)) as [Hlt | Hge].
  - (* different binades: a power of two lies between *)
    apply Z.le_trans with (2 ^ (Float.shift y + 23))%Z.
    + apply round_grid_below; [exact Hx | lia |].
      apply Qlt_le_weak.
      apply Qlt_le_trans with (inject_Z (2 ^ (Float.shift x + 24)));
        [now apply lt_pow2 |].
      rewrite <- Zle_Qle. apply Z.pow_le_mono_r; lia.
    + assert (Hlog : (Z.log2 (Qfloor y) = Float.shift y + 23)%Z)
        by (unfold Float.shift in *; lia).
      assert (Hfy : (0 < Qfloor y)%Z).
      { destruct (Z_lt_le_dec 0 (Qfloor y)) as [Hp | Hn]; [exact Hp |].
        rewrite (Z.log2_nonpos _ Hn) in Hlog. lia. }
      assert (Hby : inject_Z (2 ^ (Float.shift y + 23)) <= y).
      { apply Qle_trans with (inject_Z (Qfloor y)); [| apply Qfloor_le].
        rewrite <- Zle_Qle. rewrite <- Hlog.
        apply Z.log2_spec, Hfy. }
      assert (Hsplit : (2 ^ (Float.shift y + 23) =
                        2 ^ 23 * 2 ^ Float.shift y)%Z).
      { rewrite <- Z.pow_add_r by lia. f_equal. lia. }
      pose proof (rne_grid (2 ^ 23) _ Hsy) as Hg.
      rewrite <- Hsplit in Hg. rewrite <- Hg.
      unfold Float.round_grid.
      apply Z.mul_le_mono_nonneg_r; [apply Z.pow_nonneg; lia |].
      apply rne_le.
      apply Qmult_le_compat_r; [exact Hby |].
      apply Qlt_le_weak, Qinv_lt_0_compat, pow2_pos, Hsy.
  - assert (Heq : Float.shift x = Float.shift y) by lia.
    unfold Float.round_grid. rewrite Heq.
    apply Z.mul_le_mono_nonneg_r; [apply Z.pow_nonneg; lia |].
    apply rne_le. apply Qmult_le_compat_r; [exact Hxy |].
    apply Qlt_le_weak, Qinv_lt_0_compat, pow2_pos, Hsy.
Qed.

Lemma round_grid_fixed (v : Z) :
  (0 <= v)%Z -> (2 ^ Float.shift (inject_Z v) | v)%Z ->
  Float.round_grid (inject_Z v) = v.
Proof.
  intros Hv [k Hk]. unfold Float.round_grid.
  pose proof (shift_nonneg (inject_Z v)) as Hs.
  rewrite Hk at 1. rewrite rne_grid by exact Hs. now symmetry.
Qed.

Lemma rne_mantissa (x : Q) :
  0 <= x ->
  (0 <= Float.rne (x / inject_Z (2 ^ Float.shift x)) <= 2 ^ 24)%Z.
Proof.
  intros Hx. pose proof (shift_nonneg x) as Hs.
  pose proof (pow2_pos _ Hs) as Hp. split.
  - apply rne_nonneg. apply Qle_shift_div_l; [exact Hp | lra].
  - rewrite <- (rne_Z (2 ^ 24)). apply rne_le.
    apply Qle_shift_div_r; [exact Hp |].
    rewrite <- inject_Z_mult, <- Z.pow_add_r by lia.
    rewrite Z.add_comm. apply Qlt_le_weak. now apply lt_pow2.
Qed.

Lemma round_grid_idem (x : Q) :
  0 <= x ->
  Float.round_grid (inject_Z (Float.round_grid x)) = Float.round_grid x.
Proof.
  intros Hx. pose proof (rne_mantissa x Hx) as [Hm0 Hm24].
  pose proof (shift_nonneg x) as Hs.
  unfold Float.round_grid at 2 3.
  set (s := Float.shift x) in *.
  set (m := Float.rne (x / inject_Z (2 ^ s))) in *.
  assert (Hpow : (0 < 2 ^ s)%Z) by (apply Z.pow_pos_nonneg; lia).
  apply round_grid_fixed; [nia |].
  unfold Float.shift. rewrite Qfloor_Z.
  destruct (Z.eq_dec m 0) as [-> | Hnz].
  - rewrite Z.mul_0_l. apply Z.divide_0_r.
  - rewrite Z.log2_mul_pow2 by lia.
    destruct (Z.eq_dec m (2 ^ 24)) as [-> | Hlt].
    + rewrite Z.log2_pow2 by lia.
      replace (Z.max (s + 24 - 23) 0) with (s + 1)%Z by lia.
      exists (2 ^ 23)%Z. rewrite (Z.pow_add_r 2 s 1) by lia. lia.
    + assert (Hlog : (Z.log2 m < 24)%Z)
        by (apply Z.log2_lt_pow2; lia).
      set (s' := Z.max (s + Z.log2 m - 23) 0).
      assert (Hs' : (0 <= s' <= s)%Z) by (pose proof (Z.log2_nonneg m); lia).
      exists (m * 2 ^ (s - s'))%Z.
      rewrite <- Z.mul_assoc, <- Z.pow_add_r by lia.
      do 2 f_equal. lia.
Qed.

(** ** Rounding to binary32 *)

Lemma scale_pos : 0 < inject_Z (2 ^ 149).
Proof. reflexivity. Qed.

Lemma round_mag_nonneg (x : Q) : (0 <= Float.round_mag x)%Z.
Proof.
  apply round_grid_nonneg. pose proof (Qabs_nonneg x). pose proof scale_pos.
  nra.
Qed.

Lemma round_mag_comp (x y : Q) :
  x == y -> Float.round_mag x = Float.round_mag y.
Proof.
  intros Hxy. apply round_grid_comp. now rewrite Hxy.
Qed.

Lemma round_mag_opp (x : Q) : Float.round_mag (- x) = Float.round_mag x.
Proof. apply round_grid_comp. now rewrite Qabs_opp. Qed.

Lemma round_mag_le (x y : Q) :
  Qabs x <= Qabs y -> (Float.round_mag x <= Float.round_mag y)%Z.
Proof.
  intros Hxy. pose proof (Qabs_nonneg x). pose proof scale_pos.
  apply round_grid_le; nra.
Qed.

Lemma round_mag_zero (x : Q) : x == 0 -> Float.round_mag x = 0%Z.
Proof.
  intros Hx. rewrite (round_mag_comp x 0 Hx). reflexivity.
Qed.

Lemma Qnum_sgn_pos (x : Q) : 0 < x -> Z.sgn (Qnum x) = 1%Z.
Proof.
  destruct x as [n d]. unfold Qlt. simpl. intros Hx. apply Z.sgn_pos. lia.
Qed.

Lemma Qnum_sgn_neg (x : Q) : x < 0 -> Z.sgn (Qnum x) = (-1)%Z.
Proof.
  destruct x as [n d]. unfold Qlt. simpl. intros Hx. apply Z.sgn_neg. lia.
Qed.

(** The rounded value in terms of its magnitude. *)
Lemma round_finite_nonneg (x : Q) :
  0 <= x ->
  Float.round_finite x == inject_Z (Float.round_mag x) / inject_Z (2 ^ 149).
Proof.
  intros Hx. unfold Float.round_finite. rewrite Qred_correct, Qmake_Qdiv.
  destruct (Qle_lt_or_eq _ _ Hx) as [Hpos | Hz].
  - rewrite (Qnum_sgn_pos x Hpos), Z.mul_1_l. reflexivity.
  - rewrite (round_mag_zero x) by (symmetry; exact Hz).
    rewrite Z.mul_0_r. reflexivity.
Qed.

Lemma round_finite_opp (x : Q) :
  Float.round_finite (- x) = - Float.round_finite x.
Proof.
  unfold Float.round_finite. rewrite round_mag_opp, <- Qred_opp.
  destruct x as [n d]. simpl Qnum. rewrite Z.sgn_opp.
  unfold Qopp. simpl. now rewrite Z.mul_opp_l.
Qed.

Lemma round_finite_comp (x y : Q) :
  x == y -> Float.round_finite x = Float.round_finite y.
Proof.
  intros Hxy. unfold Float.round_finite. rewrite (round_mag_comp x y Hxy).
  destruct (Q_dec x 0) as [[Hn | Hp] | Hz].
  - rewrite (Qnum_sgn_neg x Hn), (Qnum_sgn_neg y) by lra. reflexivity.
  - rewrite (Qnum_sgn_pos x Hp), (Qnum_sgn_pos y) by lra. reflexivity.
  - rewrite (round_mag_zero y) by lra. now rewrite !Z.mul_0_r.
Qed.

Lemma round_finite_nonpos (x : Q) :
  x <= 0 ->
  Float.round_finite x ==
  - (inject_Z (Float.round_mag x) / inject_Z (2 ^ 149)).
Proof.
  intros Hx.
  assert (He : x == - - x) by ring.
  rewrite (round_finite_comp _ _ He), round_finite_opp.
  rewrite round_finite_nonneg by lra. now rewrite round_mag_opp.
Qed.

Lemma round_finite_sign (x : Q) :
  (0 <= x -> 0 <= Float.round_finite x) /\
  (x <= 0 -> Float.round_finite x <= 0).
Proof.
  pose proof (round_mag_nonneg x) as Hm. pose proof scale_pos as Hs.
  assert (Hq : 0 <= inject_Z (Float.round_mag x) / inject_Z (2 ^ 149)).
  { apply Qle_shift_div_l; [exact Hs |].
    rewrite Qmult_0_l. change 0 with (inject_Z 0). now rewrite <- Zle_Qle. }
  split; intros Hx.
  - now rewrite round_finite_nonneg.
  - rewrite round_finite_nonpos by exact Hx. lra.
Qed.

Lemma round_finite_le (x y : Q) :
  x <= y -> Float.round_finite x <= Float.round_finite y.
Proof.
  intros Hxy. pose proof scale_pos as Hs.
  assert (Hdiv : forall a b : Z, (a <= b)%Z ->
            inject_Z a / inject_Z (2 ^ 149) <= inject_Z b / inject_Z (2 ^ 149)).
  { intros a b Hab. apply Qmult_le_compat_r.
    - now rewrite <- Zle_Qle.
    - apply Qlt_le_weak, Qinv_lt_0_compat, Hs. }
  destruct (Qlt_le_dec x 0) as [Hx | Hx]; destruct (Qlt_le_dec y 0) as [Hy | Hy].
  - rewrite !round_finite_nonpos by lra. apply Qopp_le_compat, Hdiv.
    apply round_mag_le. rewrite !Qabs_neg by lra. lra.
  - apply Qle_trans with 0.
    + apply round_finite_sign. lra.
    + now apply round_finite_sign.
  - lra.
  - rewrite !round_finite_nonneg by lra. apply Hdiv.
    apply round_mag_le. rewrite !Qabs_pos by lra. exact Hxy.
Qed.

Lemma round_mag_idem (x : Q) :
  Float.round_mag (Float.round_finite x) = Float.round_mag x.
Proof.
  pose proof scale_pos as Hs. pose proof (round_mag_nonneg x) as Hm.
  assert (Hmq : 0 <= inject_Z (Float.round_mag x)).
  { change 0 with (inject_Z 0). now rewrite <- Zle_Qle. }
  assert (Habs : Qabs (Float.round_finite x) * inject_Z (2 ^ 149) ==
                 inject_Z (Float.round_mag x)).
  { destruct (Qlt_le_dec x 0) as [Hx | Hx].
    - rewrite round_finite_nonpos by lra. rewrite Qabs_opp, Qabs_pos.
      + field. lra.
      + apply Qle_shift_div_l; [exact Hs | lra].
    - rewrite round_finite_nonneg by exact Hx. rewrite Qabs_pos.
      + field. lra.
      + apply Qle_shift_div_l; [exact Hs | lra]. }
  unfold Float.round_mag at 1. rewrite (round_grid_comp _ _ Habs).
  unfold Float.round_mag. apply round_grid_idem.
  pose proof (Qabs_nonneg x). nra.
Qed.

Lemma Qred_eq (a b : Q) : Qred a == Qred b -> Qred a = Qred b.
Proof.
  intros Hab. apply Qred_complete. now rewrite !Qred_correct in Hab.
Qed.

Lemma round_finite_idem (x : Q) :
  Float.round_finite (Float.round_finite x) = Float.round_finite x.
Proof.
  assert (Hq : Float.round_finite (Float.round_finite x) ==
               Float.round_finite x).
  { destruct (Qlt_le_dec x 0) as [Hx | Hx].
    - assert (Hneg : Float.round_finite x <= 0)
        by (apply round_finite_sign; lra).
      rewrite (round_finite_nonpos _ Hneg), round_mag_idem.
      now rewrite <- round_finite_nonpos by lra.
    - assert (Hpos : 0 <= Float.round_finite x)
        by (now apply round_finite_sign).
      rewrite (round_finite_nonneg _ Hpos), round_mag_idem.
      now rewrite <- round_finite_nonneg. }
  unfold Float.round_finite in *. now apply Qred_eq.
Qed.

Lemma round_cases (x : Q) :
  Float.round x = Fin (Float.round_finite x) \/
  (Float.round x = PInf /\ 0 < x) \/
  (Float.round x = NInf /\ x < 0).
Proof.
  unfold Float.round.
  destruct (2 ^ 277 <=? Float.round_mag x)%Z eqn:Ho; [| now left].
  right. apply Z.leb_le in Ho.
  destruct (Qcompare_spec x 0) as [Hz | Hn | Hp].
  - rewrite (round_mag_zero x Hz) in Ho. exfalso. revert Ho. now vm_compute.
  - right. now split.
  - left. now split.
Qed.

Lemma round_comp (x y : Q) : x == y -> Float.round x = Float.round y.
Proof.
  intros Hxy. unfold Float.round.
  rewrite (round_mag_comp x y Hxy), (round_finite_comp x y Hxy).
  now rewrite (Qcompare_comp _ _ Hxy 0 0 (Qeq_refl 0)).
Qed.

Lemma round_idem (x y : Q) : Float.round x = Fin y -> Float.round y = Fin y.
Proof.
  unfold Float.round.
  destruct (2 ^ 277 <=? Float.round_mag x)%Z eqn:Ho.
  - destruct (x ?= 0); discriminate.
  - intros Hy. injection Hy as <-.
    now rewrite round_mag_idem, Ho, round_finite_idem.
Qed.

Lemma round_exact_int (z : Z) :
  (Z.abs z <= 2 ^ 24)%Z -> Float.round (inject_Z z) = Fin (inject_Z z).
Proof.
  intros Hz.
  assert (Habs : Qabs (inject_Z z) * inject_Z (2 ^ 149) ==
                 inject_Z (Z.abs z * 2 ^ 149)).
  { rewrite inject_Z_mult. reflexivity. }
  assert (Hmag : Float.round_mag (inject_Z z) = (Z.abs z * 2 ^ 149)%Z).
  { unfold Float.round_mag. rewrite (round_grid_comp _ _ Habs).
    apply round_grid_fixed; [lia |].
    unfold Float.shift. rewrite Qfloor_Z.
    destruct (Z.eq_dec (Z.abs z) 0) as [-> | Hnz];
      [rewrite Z.mul_0_l; apply Z.divide_0_r |].
    rewrite Z.log2_mul_pow2 by lia.
    destruct (Z.eq_dec (Z.abs z) (2 ^ 24)) as [-> | Hlt].
    - exists (2 ^ 23)%Z. reflexivity.
    - assert (Hlog : (Z.log2 (Z.abs z) < 24)%Z)
        by (apply Z.log2_lt_pow2; lia).
      pose proof (Z.log2_nonneg (Z.abs z)) as Hl0.
      replace (Z.max (149 + Z.log2 (Z.abs z) - 23) 0)
        with (126 + Z.log2 (Z.abs z))%Z by lia.
      exists (Z.abs z * 2 ^ (23 - Z.log2 (Z.abs z)))%Z.
      rewrite <- Z.mul_assoc, <- Z.pow_add_r by lia.
      do 2 f_equal. lia. }
  unfold Float.round. rewrite Hmag.
  replace (2 ^ 277 <=? Z.abs z * 2 ^ 149)%Z with false.
  - f_equal. unfold Float.round_finite. rewrite Hmag.
    rewrite <- (Qcanon.Qred_identity (inject_Z z)) at 2
      by (simpl; apply Z.gcd_1_r).
    apply Qred_complete. unfold Qeq. simpl.
    rewrite Z.mul_assoc, <- Z.abs_sgn, Pos2Z.inj_pow. simpl. lia.
  - symmetry. apply Z.leb_gt.
    apply Z.le_lt_trans with (2 ^ 24 * 2 ^ 149)%Z;
      [apply Z.mul_le_mono_nonneg_r; [now vm_compute | exact Hz]
      | now vm_compute].
Qed.
(** ** Structure of a step *)

Section Step.

Context {MotorDriverType EncoderType ControllerType : Type}.
Context {InputFilterType OutputFilterType RateLimitingFilterType : Type}.
Context `{MotorDriver MotorDriverType} `{Encoder EncoderType}.
Context `{PIDController ControllerType}.
Context `{Filter InputFilterType} `{Filter OutputFilterType}.
Context `{RateLimitingFilter RateLimitingFilterType}.

Variable PWM : Z.

Let controller : Type :=
  VelocityController MotorDriverType EncoderType ControllerType
                     InputFilterType OutputFilterType RateLimitingFilterType.

Ltac destruct_call :=
  match goal with
  | |- context [let (_, _) := ?x in _] => destruct x eqn:?
  end; cbn.

(** The first part of a step, call by call. *)
Lemma filtered_output_eq (d : float) (c : controller) :
  let y := get_velocity_radians_per_second (encoder_update (encoder_ c)) in
  let yf := filter_update (input_filter_ c) y in
  let rf := rate_limiting_update (rate_limiting_filter_ c) d (fst yf) in
  filtered_output d c =
  match Float.to_int64 (fst rf) with
  | None => None
  | Some sp =>
      let up := pid_update (pid_ c) (Float.of_int sp) (fst yf) in
      let uf := filter_update (output_filter_ c) (fst up) in
      Some (fst uf,
            {| motor_driver_ := motor_driver_ c;
               encoder_ := encoder_update (encoder_ c);
               pid_ := snd up;
               input_filter_ := snd yf;
               output_filter_ := snd uf;
               rate_limiting_filter_ := snd rf;
               deadband_threshold_ := deadband_threshold_ c;
               minimum_output_ := minimum_output_ c;
               current_setpoint_ := sp;
               calls_ :=
                 calls_ c ++
                 [EncoderUpdate; EncoderGetVelocity y;
                  InputFilterUpdate y (fst yf);
                  RateLimitingFilterUpdate d (fst yf) (fst rf);
                  PidUpdate (Float.of_int sp) (fst yf) (fst up);
                  OutputFilterUpdate (fst up) (fst uf)] |})
  end.
Proof.
  unfold filtered_output, bind, read, undefined_or, encoder_update_,
    encoder_get_velocity_, input_filter_update_,
    rate_limiting_filter_update_, pid_update_, output_filter_update_,
    assign_current_setpoint, record_call, ret, bind, read, undefined_or.
  cbn. do 2 destruct_call.
  destruct (Float.to_int64 _) as [sp |]; [| reflexivity]. cbn.
  do 2 destruct_call. repeat rewrite <- app_assoc. reflexivity.
Qed.

(** The whole step: the first part, then adjustment, scaling and the
    write. *)
Lemma set_target_eq (d : float) (c : controller) :
  set_target PWM d c =
  match filtered_output d c with
  | None => None
  | Some (u, c1) =>
      match scale_output PWM (adjust_output (deadband_threshold_ c1)
                                            (minimum_output_ c1) u) with
      | None => None
      | Some v =>
          Some (tt,
                {| motor_driver_ := set_motor_control (motor_driver_ c1) v;
                   encoder_ := encoder_ c1;
                   pid_ := pid_ c1;
                   input_filter_ := input_filter_ c1;
                   output_filter_ := output_filter_ c1;
                   rate_limiting_filter_ := rate_limiting_filter_ c1;
                   deadband_threshold_ := deadband_threshold_ c1;
                   minimum_output_ := minimum_output_ c1;
                   current_setpoint_ := current_setpoint_ c1;
                   calls_ := calls_ c1 ++ [SetMotorControl v] |})
      end
  end.
Proof.
  rewrite filtered_output_eq.
  unfold set_target, bind, read, undefined_or, encoder_update_,
    encoder_get_velocity_, input_filter_update_,
    rate_limiting_filter_update_, pid_update_, output_filter_update_,
    motor_driver_set_motor_control_, assign_current_setpoint, record_call,
    ret, bind, read, undefined_or.
  cbn. do 2 destruct_call.
  destruct (Float.to_int64 _) as [sp |]; [| reflexivity]. cbn.
  do 2 destruct_call.
  destruct (scale_output _ _) as [v |]; [| reflexivity].
  cbn. repeat rewrite <- app_assoc. reflexivity.
Qed.

Lemma step_output_eq (d : float) (c : controller) :
  let y := get_velocity_radians_per_second (encoder_update (encoder_ c)) in
  let y' := fst (filter_update (input_filter_ c) y) in
  let r := fst (rate_limiting_update (rate_limiting_filter_ c) d y') in
  step_output d c =
  match Float.to_int64 r with
  | None => None
  | Some sp =>
      Some (fst (filter_update (output_filter_ c)
                   (fst (pid_update (pid_ c) (Float.of_int sp) y'))))
  end.
Proof.
  unfold step_output. rewrite filtered_output_eq. cbn.
  now destruct (Float.to_int64 _).
Qed.

(** The command of a step is the scaled, adjusted output of the step. *)
Lemma command_of_set_target (d : float) (c : controller) :
  command_of (set_target PWM d c) =
  match step_output d c with
  | None => None
  | Some u =>
      scale_output PWM (adjust_output (deadband_threshold_ c)
                                      (minimum_output_ c) u)
  end.
Proof.
  unfold step_output. rewrite set_target_eq, filtered_output_eq. cbn.
  destruct (Float.to_int64 _) as [sp |]; [| reflexivity]. cbn.
  destruct (scale_output _ _) as [v |]; [| reflexivity].
  unfold command_of, last_command. cbn.
  now rewrite last_last.
Qed.

End Step.

(** ** Values of the operations *)


Lemma Qabs_zero_iff (q : Q) : Qabs q == 0 <-> q == 0.
Proof.
  split; intros Hq.
  - destruct (Qlt_le_dec q 0) as [Hn | Hp].
    + rewrite Qabs_neg in Hq by lra. lra.
    + rewrite Qabs_pos in Hq by lra. lra.
  - rewrite Hq. reflexivity.
Qed.

Lemma Qabs_cases (q : Q) :
  (0 <= q /\ Qabs q == q) \/ (q <= 0 /\ Qabs q == - q).
Proof.
  destruct (Qlt_le_dec q 0) as [Hn | Hp].
  - right. split; [lra | apply Qabs_neg; lra].
  - left. split; [exact Hp | now apply Qabs_pos].
Qed.

Lemma unit_quotient_pos (q : Q) : 0 < q -> q / Qabs q == 1.
Proof.
  intros Hq. rewrite Qabs_pos by lra. field. lra.
Qed.

Lemma unit_quotient_neg (q : Q) : q < 0 -> q / Qabs q == - (1).
Proof.
  intros Hq. rewrite Qabs_neg by lra. field. lra.
Qed.

Lemma ltb_below (a : Q) (t : float) :
  Float.ltb (Fin a) t = true <-> below a t.
Proof.
  destruct t as [b | | |]; simpl; try (intuition congruence).
  rewrite Qlt_alt. destruct (a ?= b); intuition congruence.
Qed.

Lemma ltb_not_below (a : Q) (t : float) :
  Float.ltb (Fin a) t = false <-> ~ below a t.
Proof.
  rewrite <- ltb_below. destruct (Float.ltb (Fin a) t); intuition congruence.
Qed.

Lemma below_comp (a b : Q) (t : float) : a == b -> below a t -> below b t.
Proof.
  intros Hab. destruct t; simpl; trivial. intros Hlt. lra.
Qed.

Lemma below_le (a b : Q) (t : float) : a <= b -> below b t -> below a t.
Proof.
  intros Hab. destruct t; simpl; trivial. intros Hlt. lra.
Qed.

Lemma round_zero : Float.round 0 = Fin 0.
Proof. reflexivity. Qed.

Lemma round_one : Float.round 1 = Fin 1.
Proof. reflexivity. Qed.

Lemma round_finite_one : Float.round_finite 1 = 1.
Proof. reflexivity. Qed.


(** Where the rounding is finite, it is [round_finite]. *)
Lemma round_Fin (x y : Q) :
  Float.round x = Fin y -> y = Float.round_finite x.
Proof.
  destruct (round_cases x) as [H | [[H _] | [H _]]]; rewrite H; congruence.
Qed.

Lemma round_never_nan (x : Q) : Float.round x <> NaN.
Proof.
  destruct (round_cases x) as [H | [[H _] | [H _]]]; rewrite H; discriminate.
Qed.

(** Rounding is odd. *)
Lemma round_opp (x : Q) :
  Float.round (- x) =
  match Float.round x with
  | Fin y => Fin (- y)
  | PInf => NInf
  | NInf => PInf
  | NaN => NaN
  end.
Proof.
  unfold Float.round. rewrite round_mag_opp, round_finite_opp.
  destruct (2 ^ 277 <=? Float.round_mag x)%Z; [| reflexivity].
  destruct (Qcompare_spec x 0) as [Hz | Hn | Hp];
    destruct (Qcompare_spec (- x) 0) as [Hz' | Hn' | Hp'];
    try reflexivity; exfalso; lra.
Qed.

(** A smaller magnitude than a finite rounding has a finite rounding. *)
Lemma round_finite_below (x y : Q) (r : Q) :
  Qabs x <= Qabs y -> Float.round y = Fin r ->
  Float.round x = Fin (Float.round_finite x).
Proof.
  intros Hxy. unfold Float.round.
  destruct (2 ^ 277 <=? Float.round_mag y)%Z eqn:Hy.
  - destruct (y ?= 0); discriminate.
  - intros _. apply Z.leb_gt in Hy.
    pose proof (round_mag_le x y Hxy) as Hle.
    replace (2 ^ 277 <=? Float.round_mag x)%Z with false; [reflexivity |].
    symmetry. apply Z.leb_gt. lia.
Qed.

(** The magnitude of a rounding is the rounding of the magnitude. *)
Lemma round_finite_abs (x : Q) :
  Qabs (Float.round_finite x) == Float.round_finite (Qabs x).
Proof.
  destruct (Qabs_cases x) as [[Hs He] | [Hs He]];
    rewrite (round_finite_comp _ _ He).
  - apply Qabs_pos. now apply round_finite_sign.
  - rewrite round_finite_opp. apply Qabs_neg. now apply round_finite_sign.
Qed.

(** The conversion of an integer. *)
Lemma of_int_cases (z : Z) :
  Float.of_int z = Fin (Float.round_finite (inject_Z z)) \/
  (Float.of_int z = PInf /\ (0 < z)%Z) \/
  (Float.of_int z = NInf /\ (z < 0)%Z).
Proof.
  unfold Float.of_int.
  destruct (round_cases (inject_Z z)) as [H | [[H Hs] | [H Hs]]].
  - now left.
  - right. left. split; [exact H |].
    change 0 with (inject_Z 0) in Hs. now rewrite <- Zlt_Qlt in Hs.
  - right. right. split; [exact H |].
    change 0 with (inject_Z 0) in Hs. now rewrite <- Zlt_Qlt in Hs.
Qed.

Lemma of_int_exact (z : Z) :
  (Z.abs z <= 2 ^ 24)%Z -> Float.of_int z = Fin (inject_Z z).
Proof. apply round_exact_int. Qed.

Lemma of_int_Fin_sign (z : Z) (t : Q) :
  Float.of_int z = Fin t ->
  ((0 <= z)%Z -> 0 <= t) /\ ((z <= 0)%Z -> t <= 0) /\
  ((1 <= z)%Z -> 1 <= t) /\ ((z <= -1)%Z -> t <= - (1)) /\
  ((z <= 1)%Z -> t <= 1).
Proof.
  unfold Float.of_int. intros Ht. apply round_Fin in Ht. subst t.
  assert (Hinj : forall a b : Z, (a <= b)%Z -> inject_Z a <= inject_Z b).
  { intros a b Hab. now rewrite <- Zle_Qle. }
  repeat split; intros Hz.
  - apply round_finite_sign. now apply (Hinj 0%Z).
  - apply round_finite_sign. now apply (Hinj z 0%Z).
  - rewrite <- round_finite_one. apply round_finite_le. now apply (Hinj 1%Z).
  - assert (Hm : Float.round_finite (- (1)) = - (1)) by reflexivity.
    rewrite <- Hm. apply round_finite_le. now apply (Hinj z (-1)%Z).
  - rewrite <- round_finite_one. apply round_finite_le. now apply (Hinj z 1%Z).
Qed.

Lemma mul_Fin (a b : Q) : Float.mul (Fin a) (Fin b) = Float.round (a * b).
Proof. reflexivity. Qed.

(** A product with a factor that is not finite is not finite. *)
Lemma mul_not_Fin_l (x y : float) (r : Q) :
  Float.mul x y = Fin r -> exists a, x = Fin a.
Proof.
  destruct x as [a | | |]; [now exists a | | |]; unfold Float.mul;
    destruct (Float.sign y) as [[] |]; discriminate.
Qed.

Lemma mul_not_Fin_r (x y : float) (r : Q) :
  Float.mul x y = Fin r -> exists b, y = Fin b.
Proof.
  destruct y as [b | | |]; [now exists b | | |]; unfold Float.mul;
    destruct x as [a | | |]; simpl; try discriminate;
    destruct (a ?= 0); discriminate.
Qed.

Lemma to_int32_Some (x : float) (v : Z) :
  Float.to_int32 x = Some v ->
  exists q, x = Fin q /\ v = Int.trunc q /\ Int.in_int32 v = true.
Proof.
  destruct x as [q | | |]; try discriminate. simpl.
  destruct (Int.in_int32 (Int.trunc q)) eqn:Hr; [| discriminate].
  intros Hv. injection Hv as <-. now exists q.
Qed.

Lemma to_int32_zero (x : Q) : Qabs x < 1 -> Float.to_int32 (Fin x) = Some 0%Z.
Proof.
  intros Hx. unfold Float.to_int32. now rewrite (trunc_zero x Hx).
Qed.

Lemma in_int32_opp (v : Z) :
  Int.in_int32 v = true -> v <> Int.int32_min ->
  Int.in_int32 (- v) = true.
Proof.
  unfold Int.in_int32, Int.int32_min, Int.int32_max.
  intros Hr Hmin. apply andb_true_iff in Hr. destruct Hr as [Hlo Hhi].
  apply Z.leb_le in Hlo, Hhi. apply andb_true_iff.
  split; apply Z.leb_le; lia.
Qed.

(** ** The adjustment and the scaling *)

(** The scaled value of a finite adjusted output. *)
Lemma scale_output_Some (P : Z) (x : float) (v : Z) :
  scale_output P x = Some v ->
  exists a p : Q,
    x = Fin a /\ Float.of_int P = Fin p /\
    Float.round (a * p) = Fin (Float.round_finite (a * p)) /\
    v = Int.trunc (Float.round_finite (a * p)) /\
    Int.in_int32 v = true.
Proof.
  unfold scale_output. intros Hv.
  apply to_int32_Some in Hv. destruct Hv as (r & Hr & Hv & Hin).
  destruct (mul_not_Fin_l _ _ _ Hr) as [a ->].
  destruct (mul_not_Fin_r _ _ _ Hr) as [p Hp].
  rewrite Hp, mul_Fin in Hr. pose proof (round_Fin _ _ Hr) as Hval.
  exists a, p. subst r. now repeat split.
Qed.

Lemma scale_output_Fin (P : Z) (a p : Q) :
  Float.of_int P = Fin p ->
  scale_output P (Fin a) = Float.to_int32 (Float.round (a * p)).
Proof. intros Hp. unfold scale_output. now rewrite Hp, mul_Fin. Qed.

(** A non-finite output never produces a command. *)
Lemma scale_adjust_finite (P deadband minimum : Z) (u : float) (v : Z) :
  scale_output P (adjust_output deadband minimum u) = Some v ->
  exists q, u = Fin q.
Proof.
  destruct u as [q | | |]; [now exists q | | |]; intros Hv;
    apply scale_output_Some in Hv; destruct Hv as (a & p & Ha & _);
    unfold adjust_output in Ha; simpl in Ha; discriminate.
Qed.

(** The quotient [output / abs(output)]. *)
Lemma unit_quotient (q : Q) :
  (q == 0 /\ Float.div (Fin q) (Fin (Qabs q)) = NaN) \/
  (0 < q /\ Float.div (Fin q) (Fin (Qabs q)) = Fin 1) \/
  (q < 0 /\ Float.div (Fin q) (Fin (Qabs q)) = Fin (- (1))).
Proof.
  unfold Float.div. destruct (Qeq_bool (Qabs q) 0) eqn:Hz.
  - left. apply Qeq_bool_iff in Hz. apply (proj1 (Qabs_zero_iff q)) in Hz.
    split; [exact Hz |]. apply Qeq_alt in Hz. now rewrite Hz.
  - right.
    assert (Hq : ~ q == 0).
    { intros Hq. apply (proj2 (Qabs_zero_iff q)) in Hq.
      apply Qeq_bool_iff in Hq. congruence. }
    destruct (Q_dec q 0) as [[Hn | Hp] | Hz']; [| | contradiction].
    + right. split; [exact Hn |].
      now rewrite (round_comp _ _ (unit_quotient_neg q Hn)).
    + left. split; [exact Hp |].
      now rewrite (round_comp _ _ (unit_quotient_pos q Hp)).
Qed.

(** The floor: the converted minimum with the sign of the output. *)
Lemma mul_of_int_one (z : Z) :
  Float.mul (Float.of_int z) (Fin 1) = Float.of_int z.
Proof.
  destruct (of_int_cases z) as [H | [[H _] | [H _]]]; rewrite H;
    try reflexivity.
  rewrite mul_Fin.
  assert (He : Float.round_finite (inject_Z z) * 1 ==
               Float.round_finite (inject_Z z)) by ring.
  rewrite (round_comp _ _ He). apply (round_idem (inject_Z z)). exact H.
Qed.

Lemma of_int_opp (z : Z) :
  Float.of_int (- z) =
  match Float.of_int z with
  | Fin y => Fin (- y)
  | PInf => NInf
  | NInf => PInf
  | NaN => NaN
  end.
Proof. unfold Float.of_int. rewrite <- round_opp. reflexivity. Qed.

Lemma mul_of_int_minus_one (z : Z) :
  Float.mul (Float.of_int z) (Fin (- (1))) = Float.of_int (- z).
Proof.
  rewrite of_int_opp.
  destruct (of_int_cases z) as [H | [[H _] | [H _]]]; rewrite H;
    try reflexivity.
  rewrite mul_Fin.
  assert (He : Float.round_finite (inject_Z z) * - (1) ==
               - Float.round_finite (inject_Z z)) by ring.
  rewrite (round_comp _ _ He), round_opp.
  now rewrite (round_idem (inject_Z z) _ H).
Qed.

(** The adjusted output of a finite output, branch by branch. *)
Lemma adjust_output_cases (deadband minimum : Z) (q : Q) :
  (below (Qabs q) (Float.of_int deadband) /\
   adjust_output deadband minimum (Fin q) = Fin 0) \/
  (~ below (Qabs q) (Float.of_int deadband) /\
   below (Qabs q) (Float.of_int minimum) /\ q == 0 /\
   adjust_output deadband minimum (Fin q) = NaN) \/
  (~ below (Qabs q) (Float.of_int deadband) /\
   below (Qabs q) (Float.of_int minimum) /\ 0 < q /\
   adjust_output deadband minimum (Fin q) = Float.of_int minimum) \/
  (~ below (Qabs q) (Float.of_int deadband) /\
   below (Qabs q) (Float.of_int minimum) /\ q < 0 /\
   adjust_output deadband minimum (Fin q) = Float.of_int (- minimum)) \/
  (~ below (Qabs q) (Float.of_int deadband) /\
   ~ below (Qabs q) (Float.of_int minimum) /\
   adjust_output deadband minimum (Fin q) = Fin q).
Proof.
  unfold adjust_output. cbn [Float.abs].
  destruct (Float.ltb (Fin (Qabs q)) (Float.of_int deadband)) eqn:Hd.
  - left. apply ltb_below in Hd. split; [exact Hd | reflexivity].
  - apply ltb_not_below in Hd. right.
    destruct (Float.ltb (Fin (Qabs q)) (Float.of_int minimum)) eqn:Hm.
    + apply ltb_below in Hm.
      destruct (unit_quotient q) as [[Hq Hu] | [[Hq Hu] | [Hq Hu]]];
        rewrite Hu.
      * left. repeat split; try assumption.
        unfold Float.mul.
        destruct (Float.of_int minimum) as [t | | |]; reflexivity.
      * right. left. repeat split; try assumption. apply mul_of_int_one.
      * right. right. left. repeat split; try assumption.
        apply mul_of_int_minus_one.
    + apply ltb_not_below in Hm. right. right. right. now repeat split.
Qed.

(** The value a defined command is the truncation of, branch by
    branch. *)
Lemma command_value (P deadband minimum : Z) (q : Q) (v : Z) :
  scale_output P (adjust_output deadband minimum (Fin q)) = Some v ->
  exists a p : Q,
    Float.of_int P = Fin p /\
    Float.round (a * p) = Fin (Float.round_finite (a * p)) /\
    v = Int.trunc (Float.round_finite (a * p)) /\
    Int.in_int32 v = true /\
    ((below (Qabs q) (Float.of_int deadband) /\ a = 0) \/
     (~ below (Qabs q) (Float.of_int deadband) /\
      below (Qabs q) (Float.of_int minimum) /\ 0 < q /\
      Float.of_int minimum = Fin a) \/
     (~ below (Qabs q) (Float.of_int deadband) /\
      below (Qabs q) (Float.of_int minimum) /\ q < 0 /\
      exists t, Float.of_int minimum = Fin t /\ a = - t) \/
     (~ below (Qabs q) (Float.of_int deadband) /\
      ~ below (Qabs q) (Float.of_int minimum) /\ a = q)).
Proof.
  intros Hv. apply scale_output_Some in Hv.
  destruct Hv as (a & p & Ha & Hp & Hfin & Hv & Hin).
  exists a, p. repeat (split; [assumption |]).
  destruct (adjust_output_cases deadband minimum q)
    as [[Hd Hx] | [(Hd & Hm & Hq & Hx) | [(Hd & Hm & Hq & Hx)
       | [(Hd & Hm & Hq & Hx) | (Hd & Hm & Hx)]]]];
    rewrite Hx in Ha; try discriminate.
  - left. split; [exact Hd | congruence].
  - right. left. auto.
  - right. right. left. repeat (split; [assumption |]).
    rewrite of_int_opp in Ha.
    destruct (Float.of_int minimum) as [t | | |]; try discriminate.
    exists t. split; [reflexivity | congruence].
  - right. right. right. repeat (split; [assumption |]). congruence.
Qed.

Ltac threshold_facts deadband minimum :=
  let Td := fresh "Td" in
  let Tm := fresh "Tm" in
  remember (Float.of_int deadband) as Td in *;
  remember (Float.of_int minimum) as Tm in *;
  repeat match goal with
         | H : _ = Float.of_int _ |- _ => clear H
         end;
  destruct Td, Tm; simpl below in *;
  repeat match goal with
         | H : Fin _ = Fin _ |- _ => injection H as H
         | H : Fin _ = PInf |- _ => discriminate H
         | H : Fin _ = NInf |- _ => discriminate H
         | H : Fin _ = NaN |- _ => discriminate H
         | H : PInf = Fin _ |- _ => discriminate H
         | H : NInf = Fin _ |- _ => discriminate H
         | H : NaN = Fin _ |- _ => discriminate H
         end;
  subst; try tauto.

Lemma sgn_Fin_pos (q : Q) : 0 < q -> Float.sgn (Fin q) = 1%Z.
Proof.
  intros Hq. unfold Float.sgn, Float.sign.
  now rewrite (proj1 (Qgt_alt q 0) Hq).
Qed.

Lemma sgn_Fin_neg (q : Q) : q < 0 -> Float.sgn (Fin q) = (-1)%Z.
Proof.
  intros Hq. unfold Float.sgn, Float.sign.
  now rewrite (proj1 (Qlt_alt q 0) Hq).
Qed.

(** The sign of a truncated value, when it is not zero, is the sign of
    the value. *)
Lemma trunc_sgn (x q : Q) :
  Int.trunc x <> 0%Z -> (0 < x -> 0 < q) -> (x < 0 -> q < 0) ->
  Z.sgn (Int.trunc x) = Float.sgn (Fin q).
Proof.
  intros Hnz Hp Hn.
  destruct (Z.lt_trichotomy (Int.trunc x) 0) as [Hlt | [Heq | Hgt]].
  - rewrite Z.sgn_neg by exact Hlt.
    symmetry. apply sgn_Fin_neg, Hn, trunc_neg, Hlt.
  - contradiction.
  - rewrite Z.sgn_pos by exact Hgt.
    symmetry. apply sgn_Fin_pos, Hp, trunc_pos, Hgt.
Qed.

Lemma round_finite_pos_inv (x : Q) : 0 < Float.round_finite x -> 0 < x.
Proof.
  intros Hr. destruct (Qlt_le_dec 0 x) as [Hx | Hx]; [exact Hx |].
  apply round_finite_sign in Hx. lra.
Qed.

Lemma round_finite_neg_inv (x : Q) : Float.round_finite x < 0 -> x < 0.
Proof.
  intros Hr. destruct (Qlt_le_dec x 0) as [Hx | Hx]; [exact Hx |].
  apply round_finite_sign in Hx. lra.
Qed.

Lemma law_sign (P deadband minimum : Z) (u : float) (v : Z) :
  (0 < P)%Z ->
  scale_output P (adjust_output deadband minimum u) = Some v ->
  v <> 0%Z -> Z.sgn v = Float.sgn u.
Proof.
  intros HP Hv Hnz.
  destruct (scale_adjust_finite _ _ _ _ _ Hv) as [q ->].
  destruct (command_value _ _ _ _ _ Hv) as (a & p & Hp & _ & -> & _ & Hc).
  destruct (of_int_Fin_sign P p Hp) as (Hp0 & _).
  assert (Hpq : 0 <= p) by (apply Hp0; lia).
  pose proof (Qabs_nonneg q) as Habs.
  apply trunc_sgn; [exact Hnz | |]; intros Hx;
    [apply round_finite_pos_inv in Hx | apply round_finite_neg_inv in Hx];
    destruct (Qabs_cases q) as [[Hs He] | [Hs He]];
    destruct Hc as [[Hd Ha] | [(Hd & Hm & Hq & Ha) | [(Hd & Hm & Hq & t & Ht & Ha)
                   | (Hd & Hm & Ha)]]];
    threshold_facts deadband minimum; try lra; try nra.
Qed.

(** The opposite output has the opposite adjusted value. *)
Lemma adjust_output_opp (deadband minimum : Z) (q a : Q) :
  adjust_output deadband minimum (Fin q) = Fin a ->
  adjust_output deadband minimum (Fin (- q)) = Fin (- a).
Proof.
  intros Ha. pose proof (Qabs_opp q) as Hopp.
  assert (Hb : forall t, below (Qabs (- q)) t <-> below (Qabs q) t).
  { intros t. split; apply below_comp; [exact Hopp | now symmetry]. }
  assert (Hzero : Fin 0 = Fin (- 0)) by reflexivity.
  destruct (adjust_output_cases deadband minimum q)
    as [[Hd Hx] | [(Hd & Hm & Hq & Hx) | [(Hd & Hm & Hq & Hx)
       | [(Hd & Hm & Hq & Hx) | (Hd & Hm & Hx)]]]];
    rewrite Hx in Ha; try discriminate;
    destruct (adjust_output_cases deadband minimum (- q))
      as [[Hd' Hy] | [(Hd' & Hm' & Hq' & Hy) | [(Hd' & Hm' & Hq' & Hy)
         | [(Hd' & Hm' & Hq' & Hy) | (Hd' & Hm' & Hy)]]]];
    rewrite ?Hb in *; try tauto; try (exfalso; lra); rewrite Hy.
  - injection Ha as <-. exact Hzero.
  - rewrite of_int_opp, Ha. reflexivity.
  - rewrite of_int_opp in Ha.
    destruct (Float.of_int minimum) as [t | | |]; try discriminate.
    injection Ha as <-. f_equal.
    unfold Qopp. simpl. now rewrite Z.opp_involutive; destruct t.
  - now injection Ha as <-.
Qed.

Lemma law_odd (P deadband minimum : Z) (q : Q) (v : Z) :
  scale_output P (adjust_output deadband minimum (Fin q)) = Some v ->
  v <> Int.int32_min ->
  scale_output P (adjust_output deadband minimum (Fin (- q))) =
  Some (- v)%Z.
Proof.
  intros Hv Hmin. apply scale_output_Some in Hv.
  destruct Hv as (a & p & Ha & Hp & Hfin & -> & Hin).
  rewrite (adjust_output_opp _ _ _ _ Ha), (scale_output_Fin _ _ _ Hp).
  assert (He : - a * p == - (a * p)) by ring.
  rewrite (round_comp _ _ He), round_opp, Hfin. unfold Float.to_int32.
  rewrite trunc_opp. now rewrite in_int32_opp.
Qed.

Lemma law_monotone (P deadband minimum : Z) (q1 q2 : Q) (v1 v2 : Z) :
  (0 <= P)%Z -> q1 <= q2 ->
  scale_output P (adjust_output deadband minimum (Fin q1)) = Some v1 ->
  scale_output P (adjust_output deadband minimum (Fin q2)) = Some v2 ->
  (v1 <= v2)%Z.
Proof.
  intros HP Hq H1 H2.
  destruct (command_value _ _ _ _ _ H1) as (a1 & p & Hp & _ & -> & _ & Hc1).
  destruct (command_value _ _ _ _ _ H2) as (a2 & p' & Hp' & _ & -> & _ & Hc2).
  rewrite Hp in Hp'. injection Hp' as <-.
  destruct (of_int_Fin_sign P p Hp) as (Hp0 & _).
  assert (Hpq : 0 <= p) by (apply Hp0; lia).
  apply trunc_le_mono, round_finite_le.
  assert (Ha : a1 <= a2).
  { clear Hp Hp0 H1 H2.
    destruct (Qabs_cases q1) as [[Hs1 He1] | [Hs1 He1]];
      destruct (Qabs_cases q2) as [[Hs2 He2] | [Hs2 He2]];
      destruct Hc1 as [[Hd1 Ha1] | [(Hd1 & Hm1 & Hp1 & Ha1)
                      | [(Hd1 & Hm1 & Hp1 & t1 & Ht1 & Ha1) | (Hd1 & Hm1 & Ha1)]]];
      destruct Hc2 as [[Hd2 Ha2] | [(Hd2 & Hm2 & Hp2 & Ha2)
                      | [(Hd2 & Hm2 & Hp2 & t2 & Ht2 & Ha2) | (Hd2 & Hm2 & Ha2)]]];
      threshold_facts deadband minimum; lra. }
  nra.
Qed.

Lemma round_finite_exact (z : Z) :
  (Z.abs z <= 2 ^ 24)%Z -> Float.round_finite (inject_Z z) = inject_Z z.
Proof.
  intros Hz. pose proof (of_int_exact z Hz) as He.
  unfold Float.of_int in He. apply round_Fin in He. now symmetry.
Qed.

(** A rounding is at least as large in magnitude as an exactly
    representable integer below the magnitude of its argument. *)
Lemma round_finite_abs_ge (x : Q) (k : Z) :
  Float.round_finite (inject_Z k) = inject_Z k -> inject_Z k <= Qabs x ->
  inject_Z k <= Qabs (Float.round_finite x).
Proof.
  intros Hk Hx. rewrite round_finite_abs.
  rewrite <- Hk at 1. now apply round_finite_le.
Qed.

Lemma round_finite_abs_le (x : Q) (k : Z) :
  Float.round_finite (inject_Z k) = inject_Z k -> Qabs x <= inject_Z k ->
  Qabs (Float.round_finite x) <= inject_Z k.
Proof.
  intros Hk Hx. rewrite round_finite_abs.
  rewrite <- Hk at 1. now apply round_finite_le.
Qed.

Lemma of_int_exact_round (z : Z) :
  Float.of_int z = Fin (inject_Z z) ->
  Float.round_finite (inject_Z z) = inject_Z z.
Proof.
  unfold Float.of_int. intros He. apply round_Fin in He. now symmetry.
Qed.


(** The converted scale factor has magnitude at least 1 unless it is
    zero. *)
Lemma of_int_abs_ge_1 (P : Z) (p : Q) :
  Float.of_int P = Fin p -> P <> 0%Z -> 1 <= Qabs p.
Proof.
  intros Hp HP. destruct (of_int_Fin_sign P p Hp) as (_ & _ & H1 & Hm1 & _).
  destruct (Z_lt_le_dec P 0) as [Hn | Hpz].
  - rewrite Qabs_neg; [| assert (p <= - (1)) by (apply Hm1; lia); lra].
    assert (p <= - (1)) by (apply Hm1; lia). lra.
  - rewrite Qabs_pos; [| assert (1 <= p) by (apply H1; lia); lra].
    apply H1. lia.
Qed.




Lemma law_range (P : Z) (a : Q) :
  (0 <= P <= Int.int32_max)%Z -> Float.of_int P = Fin (inject_Z P) ->
  Qabs a <= 1 ->
  exists v, scale_output P (Fin a) = Some v /\ (Z.abs v <= P)%Z.
Proof.
  intros HP Hp Ha.
  assert (HPq : 0 <= inject_Z P).
  { change 0 with (inject_Z 0). rewrite <- Zle_Qle. lia. }
  assert (Habs : Qabs (a * inject_Z P) <= inject_Z P).
  { rewrite Qabs_Qmult, (Qabs_pos (inject_Z P)) by exact HPq.
    pose proof (Qabs_nonneg a). nra. }
  assert (Hle : (Z.abs (Int.trunc (Float.round_finite (a * inject_Z P)))
                 <= P)%Z).
  { apply trunc_abs_le, round_finite_abs_le;
      [now apply of_int_exact_round | exact Habs]. }
  exists (Int.trunc (Float.round_finite (a * inject_Z P))).
  split; [| exact Hle].
  rewrite (scale_output_Fin _ _ _ Hp).
  rewrite (round_finite_below (a * inject_Z P) (inject_Z P) (inject_Z P)).
  - unfold Float.to_int32.
    replace (Int.in_int32 _) with true; [reflexivity |].
    symmetry. unfold Int.in_int32, Int.int32_min, Int.int32_max in *.
    apply andb_true_iff. split; apply Z.leb_le; lia.
  - now rewrite (Qabs_pos (inject_Z P)).
  - exact Hp.
Qed.

Lemma law_range_input (P deadband minimum : Z) (q : Q) (v : Z) :
  (0 <= P)%Z -> Float.of_int P = Fin (inject_Z P) ->
  (minimum <= 1)%Z -> Qabs q <= 1 ->
  scale_output P (adjust_output deadband minimum (Fin q)) = Some v ->
  (Z.abs v <= P)%Z.
Proof.
  intros HP Hex Hmin Hq Hv.
  destruct (command_value _ _ _ _ _ Hv) as (a & p & Hp & _ & -> & _ & Hc).
  rewrite Hex in Hp. injection Hp as <-.
  assert (HPq : 0 <= inject_Z P).
  { change 0 with (inject_Z 0). rewrite <- Zle_Qle. lia. }
  apply trunc_abs_le, round_finite_abs_le;
    [now apply of_int_exact_round |].
  rewrite Qabs_Qmult, (Qabs_pos (inject_Z P)) by exact HPq.
  assert (Ha : Qabs a <= 1).
  { pose proof (Qabs_nonneg q) as Hq0. apply Qabs_Qle_condition.
    destruct Hc as [[Hd Ha] | [(Hd & Hm & Hs & Ha) | [(Hd & Hm & Hs & t & Ht & Ha)
                   | (Hd & Hm & Ha)]]].
    - subst a. lra.
    - destruct (of_int_Fin_sign _ _ Ha) as (_ & _ & _ & _ & H1).
      rewrite Ha in Hm. simpl in Hm. specialize (H1 Hmin). lra.
    - destruct (of_int_Fin_sign _ _ Ht) as (_ & _ & _ & _ & H1).
      rewrite Ht in Hm. simpl in Hm. specialize (H1 Hmin). subst a. lra.
    - subst a. now apply Qabs_Qle_condition. }
  pose proof (Qabs_nonneg a). nra.
Qed.

Lemma law_floor (P deadband minimum : Z) (q : Q) :
  Float.ltb (Fin (Qabs q)) (Float.of_int deadband) = false ->
  Float.ltb (Fin (Qabs q)) (Float.of_int minimum) = true ->
  ~ q == 0 ->
  scale_output P (adjust_output deadband minimum (Fin q)) =
  Float.to_int32
    (Float.mul (Float.of_int (Float.sgn (Fin q) * minimum))
               (Float.of_int P)).
Proof.
  intros Hd Hm Hq. apply ltb_not_below in Hd. apply ltb_below in Hm.
  destruct (adjust_output_cases deadband minimum q)
    as [[Hd' _] | [(_ & _ & Hq' & _) | [(_ & _ & Hq' & Ha)
       | [(_ & _ & Hq' & Ha) | (_ & Hm' & _)]]]];
    try contradiction; rewrite Ha; unfold scale_output.
  - rewrite (sgn_Fin_pos q Hq'). now rewrite Z.mul_1_l.
  - rewrite (sgn_Fin_neg q Hq').
    replace (-1 * minimum)%Z with (- minimum)%Z by lia. reflexivity.
Qed.

Lemma law_zero_iff (P deadband minimum : Z) (q p : Q) :
  P <> 0%Z -> Float.of_int P = Fin p ->
  scale_output P (adjust_output deadband minimum (Fin q)) = Some 0%Z <->
  Float.ltb (Fin (Qabs q)) (Float.of_int deadband) = true \/
  (Float.ltb (Fin (Qabs q)) (Float.of_int minimum) = false /\
   exists x, Float.mul (Fin q) (Fin p) = Fin x /\ Qabs x < 1).
Proof.
  intros HP Hp. pose proof (of_int_abs_ge_1 P p Hp HP) as Hp1.
  rewrite ltb_below, ltb_not_below.
  assert (Hz : scale_output P (Fin 0) = Some 0%Z).
  { rewrite (scale_output_Fin _ _ _ Hp).
    assert (He : 0 * p == 0) by ring.
    now rewrite (round_comp _ _ He). }
  split.
  - intros Hv.
    destruct (command_value _ _ _ _ _ Hv) as (a & p' & Hp' & Hfin & Ht & _ & Hc).
    rewrite Hp in Hp'. injection Hp' as <-.
    symmetry in Ht. apply trunc_zero_iff in Ht.
    assert (Hfloor : forall t : Q, 1 <= Qabs t -> a = t \/ a = - t -> False).
    { intros t Ht1 Hat.
      assert (Hge : inject_Z 1 <= Qabs (Float.round_finite (a * p))).
      { apply round_finite_abs_ge; [reflexivity |].
        change (inject_Z 1) with 1. rewrite Qabs_Qmult.
        assert (Qabs a == Qabs t)
          by (destruct Hat as [-> | ->]; [reflexivity | apply Qabs_opp]).
        pose proof (Qabs_nonneg a). nra. }
      change (inject_Z 1) with 1 in Hge. lra. }
    pose proof (Qabs_nonneg q) as Hq0.
    destruct Hc as [[Hd Ha] | [(Hd & Hm & Hq & Ha) | [(Hd & Hm & Hq & t & Htm & Ha)
                   | (Hd & Hm & Ha)]]].
    + now left.
    + exfalso. apply (Hfloor a); [| now left].
      rewrite Ha in Hm. simpl in Hm.
      destruct (Z_lt_le_dec minimum 1) as [Hlt | Hge].
      * destruct (of_int_Fin_sign _ _ Ha) as (_ & H0 & _).
        assert (a <= 0) by (apply H0; lia). lra.
      * destruct (of_int_Fin_sign _ _ Ha) as (_ & _ & H1 & _).
        specialize (H1 Hge). rewrite Qabs_pos; lra.
    + exfalso. apply (Hfloor t); [| now right].
      rewrite Htm in Hm. simpl in Hm.
      destruct (Z_lt_le_dec minimum 1) as [Hlt | Hge].
      * destruct (of_int_Fin_sign _ _ Htm) as (_ & H0 & _).
        assert (t <= 0) by (apply H0; lia). lra.
      * destruct (of_int_Fin_sign _ _ Htm) as (_ & _ & H1 & _).
        specialize (H1 Hge). rewrite Qabs_pos; lra.
    + right. split; [exact Hm |]. subst a.
      exists (Float.round_finite (q * p)). now rewrite mul_Fin.
  - intros [Hd | (Hm & x & Hx & Hlt)].
    + destruct (adjust_output_cases deadband minimum q)
        as [[_ Ha] | [(Hd' & _) | [(Hd' & _) | [(Hd' & _) | (Hd' & _)]]]];
        try contradiction.
      now rewrite Ha.
    + destruct (adjust_output_cases deadband minimum q)
        as [[_ Ha] | [(_ & Hm' & _) | [(_ & Hm' & _) | [(_ & Hm' & _)
           | (_ & _ & Ha)]]]]; try contradiction; rewrite Ha.
      * exact Hz.
      * rewrite (scale_output_Fin _ _ _ Hp), <- mul_Fin, Hx.
        now apply to_int32_zero.
Qed.

Lemma adjust_output_disabled (deadband minimum : Z) (u : float) :
  (deadband <= 0)%Z -> (minimum <= 0)%Z ->
  adjust_output deadband minimum u = u.
Proof.
  intros Hd Hm.
  assert (Hnot : forall t : Z, (t <= 0)%Z ->
            Float.ltb (Float.abs u) (Float.of_int t) = false).
  { intros t Ht. destruct u as [q | | |]; cbn [Float.abs];
      try (destruct (Float.of_int t); reflexivity).
    apply ltb_not_below. pose proof (Qabs_nonneg q) as Hq.
    destruct (of_int_cases t) as [H | [[H Hs] | [H Hs]]]; rewrite H; simpl;
      try lia; try tauto.
    destruct (of_int_Fin_sign _ _ H) as (_ & H0 & _). specialize (H0 Ht).
    lra. }
  unfold adjust_output. now rewrite (Hnot _ Hd), (Hnot _ Hm).
Qed.
(** ** Properties of the controller *)

Section Claims.

Context {MotorDriverType EncoderType ControllerType : Type}.
Context {InputFilterType OutputFilterType RateLimitingFilterType : Type}.
Context `{MotorDriver MotorDriverType} `{Encoder EncoderType}.
Context `{PIDController ControllerType}.
Context `{Filter InputFilterType} `{Filter OutputFilterType}.
Context `{RateLimitingFilter RateLimitingFilterType}.

Variable PWM : Z.

Let controller : Type :=
  VelocityController MotorDriverType EncoderType ControllerType
                     InputFilterType OutputFilterType RateLimitingFilterType.

(** C2, as amended: the source has no clamp.  When [PWM_RESOLUTION]
    fits an [int32_t] and converts to [float] exactly (as every value
    up to 2^24 does), and the output after the deadband and
    minimum-output adjustment is a finite value of magnitude at most 1,
    a command is written and satisfies [|cmd| <= PWM_RESOLUTION]. *)
Theorem command_within_range_of_unit_output
  (d : float) (c : controller) (u : float) (a : Q) :
  (0 <= PWM <= Int.int32_max)%Z ->
  Float.of_int PWM = Fin (inject_Z PWM) ->
  step_output d c = Some u ->
  adjust_output (deadband_threshold_ c) (minimum_output_ c) u = Fin a ->
  Qabs a <= 1 ->
  command_within_range PWM d c /\
  exists cmd, command_of (set_target PWM d c) = Some cmd.
Proof.
  intros HP Hex Hu Ha Hle.
  destruct (law_range PWM a HP Hex Hle) as (v & Hv & Hbound).
  split.
  - intros cmd Hcmd. rewrite command_of_set_target, Hu, Ha, Hv in Hcmd.
    now injection Hcmd as <-.
  - exists v. now rewrite command_of_set_target, Hu, Ha.
Qed.


(** C5: a nonzero command written by [set_target] has the sign of the
    output-filtered PID output. *)
Theorem nonzero_command_sign
  (d : float) (c : controller) (u : float) (cmd : Z) :
  (0 < PWM)%Z ->
  step_output d c = Some u ->
  command_of (set_target PWM d c) = Some cmd ->
  cmd <> 0%Z ->
  Z.sgn cmd = Float.sgn u.
Proof.
  intros HP Hu. rewrite command_of_set_target, Hu.
  now apply law_sign.
Qed.

(** C7, as amended: construction performs no validation.  For every
    pair of thresholds it yields a controller that stores them
    unchanged, and it coincides with the checked construction exactly
    on the configurations that satisfy the invariant. *)
Theorem construction_is_unchecked
  (motor_driver : MotorDriverType) (encoder : EncoderType)
  (pid_controller : ControllerType) (input_filter : InputFilterType)
  (output_filter : OutputFilterType)
  (rate_limiting_filter : RateLimitingFilterType)
  (deadband_threshold minimum_output : Z) :
  let c := new motor_driver encoder pid_controller input_filter
               output_filter rate_limiting_filter deadband_threshold
               minimum_output in
  deadband_threshold_ c = deadband_threshold /\
  minimum_output_ c = minimum_output /\
  (construction_is_checked PWM motor_driver encoder pid_controller
     input_filter output_filter rate_limiting_filter deadband_threshold
     minimum_output <->
   valid_configuration PWM deadband_threshold minimum_output = true).
Proof.
  cbn. split; [reflexivity | split; [reflexivity |]].
  unfold construction_is_checked, checked_new.
  destruct (valid_configuration PWM deadband_threshold minimum_output);
    split; intros Hc; try reflexivity; discriminate.
Qed.

(** C8: one [set_target] does the following, in this order.  It
    updates the encoder and reads the velocity from the updated
    encoder; passes it through the input filter; hands the desired
    speed and the filtered velocity to the rate limiter and stores the
    result, converted, as the setpoint; hands the stored setpoint and
    the filtered velocity to the PID; passes the PID output through the
    output filter; zeroes it below the deadband, else raises it to the
    minimum with its sign, else leaves it; multiplies by
    [PWM_RESOLUTION] and truncates; hands the result to the driver.
    Every collaborator is advanced exactly once, by that call; the step
    is defined as soon as the two conversions to integers are. *)
Theorem set_target_call_order (d : float) (c : controller) (sp v : Z) :
  let y := get_velocity_radians_per_second (encoder_update (encoder_ c)) in
  let yf := filter_update (input_filter_ c) y in
  let rf := rate_limiting_update (rate_limiting_filter_ c) d (fst yf) in
  let up := pid_update (pid_ c) (Float.of_int sp) (fst yf) in
  let uf := filter_update (output_filter_ c) (fst up) in
  let adjusted :=
    if Float.ltb (Float.abs (fst uf))
                 (Float.of_int (deadband_threshold_ c))
    then Float.of_int 0
    else if Float.ltb (Float.abs (fst uf))
                      (Float.of_int (minimum_output_ c))
    then Float.mul (Float.of_int (minimum_output_ c))
                   (Float.div (fst uf) (Float.abs (fst uf)))
    else fst uf in
  Float.to_int64 (fst rf) = Some sp ->
  Float.to_int32 (Float.mul adjusted (Float.of_int PWM)) = Some v ->
  exists c' : controller,
    set_target PWM d c = Some (tt, c') /\
    calls_ c' =
      calls_ c ++
      [EncoderUpdate; EncoderGetVelocity y; InputFilterUpdate y (fst yf);
       RateLimitingFilterUpdate d (fst yf) (fst rf);
       PidUpdate (Float.of_int sp) (fst yf) (fst up);
       OutputFilterUpdate (fst up) (fst uf); SetMotorControl v] /\
    encoder_ c' = encoder_update (encoder_ c) /\
    input_filter_ c' = snd yf /\
    rate_limiting_filter_ c' = snd rf /\
    get_setpoint c' = sp /\
    pid_ c' = snd up /\
    output_filter_ c' = snd uf /\
    motor_driver_ c' = set_motor_control (motor_driver_ c) v /\
    deadband_threshold_ c' = deadband_threshold_ c /\
    minimum_output_ c' = minimum_output_ c.
Proof.
  intros y yf rf up uf adjusted Hsp Hv. subst y yf rf up uf adjusted.
  rewrite set_target_eq, filtered_output_eq. cbv zeta.
  rewrite Hsp. cbn [fst snd deadband_threshold_ minimum_output_].
  unfold scale_output, adjust_output. rewrite Hv.
  eexists. split; [reflexivity |].
  cbn [calls_ encoder_ input_filter_ rate_limiting_filter_ get_setpoint
       current_setpoint_ pid_ output_filter_ motor_driver_
       deadband_threshold_ minimum_output_].
  rewrite <- app_assoc. repeat split.
Qed.

(** C9: two [set_target] calls with the same argument, on controllers
    with the same collaborator states and thresholds, write the same
    command, whatever the stored setpoint, the driver and the earlier
    calls are. *)
Theorem set_target_deterministic (d : float) (c1 c2 : controller) :
  same_inputs c1 c2 ->
  command_of (set_target PWM d c1) = command_of (set_target PWM d c2).
Proof.
  intros (He & Hp & Hi & Ho & Hr & Hd & Hm).
  rewrite !command_of_set_target, !step_output_eq. cbn.
  now rewrite He, Hp, Hi, Ho, Hr, Hd, Hm.
Qed.

(** C10: on a freshly constructed controller [get_setpoint] is zero. *)
Theorem fresh_setpoint_is_zero
  (motor_driver : MotorDriverType) (encoder : EncoderType)
  (pid_controller : ControllerType) (input_filter : InputFilterType)
  (output_filter : OutputFilterType)
  (rate_limiting_filter : RateLimitingFilterType)
  (deadband_threshold minimum_output : Z) :
  get_setpoint (new motor_driver encoder pid_controller input_filter
                    output_filter rate_limiting_filter deadband_threshold
                    minimum_output) = 0%Z.
Proof. reflexivity. Qed.

End Claims.

(** ** The scenarios of the specification, evaluated *)

(** The end-to-end table of the specification ([PWM_MAX] 4096, deadband
    100, minimum 300) as the source computes it, the PID outputs being
    the binary32 values of 0.5, 0.01, -0.05, 1, -1.5 and 0: the
    thresholds are compared with the unscaled output, so every output
    of magnitude below 100 is zeroed. *)
Example scenario_table_as_computed :
  map (fun u => command_of (set_target 4096 (Fin 1)
                              (scenario (Float.round u) 100 300)))
      [1 # 2; 1 # 100; - 1 # 20; 1; - 3 # 2; 0] =
  [Some 0; Some 0; Some 0; Some 0; Some 0; Some 0]%Z.
Proof. reflexivity. Qed.

(** The same outputs with deadband 0 and minimum 0: plain scaling and
    truncation, without saturation. *)
Example scenario_table_without_thresholds :
  map (fun u => command_of (set_target 4096 (Fin 1)
                              (scenario (Float.round u) 0 0)))
      [1 # 2; 1 # 100; - 1 # 20; 1; - 3 # 2; 0] =
  [Some 2048; Some 40; Some (-204); Some 4096; Some (-6144); Some 0]%Z.
Proof. reflexivity. Qed.

Example scenario_after_step_eq :
  set_target 4096 (Fin 1) (scenario (Fin (1 # 2)) 0 0) =
  Some (tt, scenario_after_step).
Proof. reflexivity. Qed.

(** C1 on scenario S1 (PID output 1/2, [PWM_MAX] 4096, deadband 100,
    minimum 300): the deadband test compares the unscaled 1/2 with
    100, so the command written is 0 although [|u * PWM_MAX|] is 2048,
    not below 100. *)
Theorem deadband_compares_unscaled_output :
  step_output (Fin 1) (scenario (Fin (1 # 2)) 100 300) = Some (Fin (1 # 2)) /\
  Float.ltb (Float.abs (Fin (1 # 2))) (Float.of_int 100) = true /\
  command_of (set_target 4096 (Fin 1) (scenario (Fin (1 # 2)) 100 300)) =
    Some 0%Z /\
  ~ Qabs ((1 # 2) * inject_Z 4096) < inject_Z 100 /\
  ~ deadband_on_scaled_command 4096 (Fin 1) (scenario (Fin (1 # 2)) 100 300).
Proof.
  repeat (split; [reflexivity |]). split.
  - vm_compute. discriminate.
  - intros Hc. destruct (Hc (1 # 2) eq_refl) as [Hlt _].
    specialize (Hlt eq_refl). vm_compute in Hlt. discriminate.
Qed.

(** C2 as stated fails on scenario S5 run with deadband 0 and minimum
    0 (PID output -3/2, [PWM_MAX] 4096): the command written is
    -6144. *)
Lemma command_within_range_fails :
  ~ command_within_range 4096 (Fin 1) (scenario (Fin (- 3 # 2)) 0 0).
Proof.
  intros Hc. specialize (Hc (-6144)%Z eq_refl). vm_compute in Hc.
  now apply Hc.
Qed.

Lemma command_within_range_of_unit_output_witness :
  (0 <= 4096 <= Int.int32_max)%Z /\
  Float.of_int 4096 = Fin (inject_Z 4096) /\
  step_output (Fin 1) (scenario (Fin (1 # 2)) 0 0) = Some (Fin (1 # 2)) /\
  adjust_output (deadband_threshold_ (scenario (Fin (1 # 2)) 0 0))
                (minimum_output_ (scenario (Fin (1 # 2)) 0 0))
                (Fin (1 # 2)) = Fin (1 # 2) /\
  Qabs (1 # 2) <= 1 /\
  command_within_range 4096 (Fin 1) (scenario (Fin (1 # 2)) 0 0) /\
  exists cmd,
    command_of (set_target 4096 (Fin 1) (scenario (Fin (1 # 2)) 0 0)) =
    Some cmd.
Proof.
  assert (H1 : (0 <= 4096 <= Int.int32_max)%Z)
    by (vm_compute; split; discriminate).
  assert (H4 : Qabs (1 # 2) <= 1) by (vm_compute; discriminate).
  split; [exact H1 | split; [reflexivity |]].
  split; [reflexivity | split; [reflexivity |]].
  split; [exact H4 |].
  exact (command_within_range_of_unit_output 4096 (Fin 1)
           (scenario (Fin (1 # 2)) 0 0) (Fin (1 # 2)) (1 # 2)
           H1 eq_refl eq_refl eq_refl H4).
Defined.

(** C3 on scenario S7 (rate limiter [min(desired, measurement + 0.1)],
    measurement 0, [set_target(5.0)]): the rate limiter returns 1/10 and
    [get_setpoint] is 0 afterwards, the value truncated to an integer. *)
Theorem setpoint_S7_is_truncated :
  exists c',
    set_target 4096 (Fin 5) (scenario_S7 (Fin 0) 0 0) = Some (tt, c') /\
    In (RateLimitingFilterUpdate (Fin 5) (Fin 0) (Fin (1 # 10))) (calls_ c') /\
    get_setpoint c' = 0%Z.
Proof.
  eexists. split; [vm_compute; reflexivity |].
  split; [cbn; tauto | reflexivity].
Qed.



Lemma nonzero_command_sign_witness :
  (0 < 4096)%Z /\
  step_output (Fin 1) (scenario (Fin (- 3 # 2)) 0 0) = Some (Fin (- 3 # 2)) /\
  command_of (set_target 4096 (Fin 1) (scenario (Fin (- 3 # 2)) 0 0)) =
    Some (-6144)%Z /\
  (-6144)%Z <> 0%Z /\
  Z.sgn (-6144) = Float.sgn (Fin (- 3 # 2)).
Proof.
  split; [lia | split; [reflexivity | split; [reflexivity |]]].
  split; [discriminate |].
  apply (nonzero_command_sign 4096 (Fin 1)
           (scenario (Fin (- 3 # 2)) 0 0) (Fin (- 3 # 2)) (-6144));
    [lia | reflexivity | reflexivity | discriminate].
Defined.

(** C6 on PID output 0 with deadband 0 and minimum 300: the deadband
    test fails, the floor branch is taken and evaluates 0 / 0; the
    adjusted output is not a number and no command is defined. *)
Theorem zero_output_divides_by_zero :
  step_output (Fin 1) (scenario (Fin 0) 0 300) = Some (Fin 0) /\
  Float.ltb (Float.abs (Fin 0)) (Float.of_int 0) = false /\
  Float.ltb (Float.abs (Fin 0)) (Float.of_int 300) = true /\
  Float.div (Fin 0) (Float.abs (Fin 0)) = NaN /\
  adjust_output 0 300 (Fin 0) = NaN /\
  set_target 4096 (Fin 1) (scenario (Fin 0) 0 300) = None.
Proof. repeat split. Qed.

(** C7 as stated fails for deadband 500 and minimum 100 with
    [PWM_MAX] 4096: the invariant is violated and a controller is
    produced. *)
Lemma construction_is_checked_fails :
  valid_configuration 4096 500 100 = false /\
  ~ construction_is_checked 4096 {| received := [] |}
      {| fixed_velocity := Float.zero |} {| constant_output := Float.zero |}
      identity_filter identity_filter identity_rate_limiter 500 100.
Proof.
  split; [reflexivity |]. unfold construction_is_checked, checked_new.
  cbn. discriminate.
Qed.

Lemma set_target_call_order_witness :
  Float.to_int64 (Fin 1) = Some 1%Z /\
  Float.to_int32
    (Float.mul (Float.mul (Float.of_int 1)
                          (Float.div (Fin (- (1 # 2)))
                                     (Float.abs (Fin (- (1 # 2))))))
               (Float.of_int 4096)) = Some (- 4096)%Z /\
  exists c',
    set_target 4096 (Fin 1) (scenario (Fin (- (1 # 2))) 0 1) =
      Some (tt, c') /\
    calls_ c' =
      calls_ (scenario (Fin (- (1 # 2))) 0 1) ++
      [EncoderUpdate; EncoderGetVelocity (Fin 0);
       InputFilterUpdate (Fin 0) (Fin 0);
       RateLimitingFilterUpdate (Fin 1) (Fin 0) (Fin 1);
       PidUpdate (Fin 1) (Fin 0) (Fin (- (1 # 2)));
       OutputFilterUpdate (Fin (- (1 # 2))) (Fin (- (1 # 2)));
       SetMotorControl (- 4096)] /\
    encoder_ c' = {| fixed_velocity := Fin 0 |} /\
    input_filter_ c' = identity_filter /\
    rate_limiting_filter_ c' = identity_rate_limiter /\
    get_setpoint c' = 1%Z /\
    pid_ c' = {| constant_output := Fin (- (1 # 2)) |} /\
    output_filter_ c' = identity_filter /\
    motor_driver_ c' = {| received := [(- 4096)%Z] |} /\
    deadband_threshold_ c' = 0%Z /\
    minimum_output_ c' = 1%Z.
Proof.
  split; [reflexivity | split; [reflexivity |]].
  exact (set_target_call_order 4096 (Fin 1)
           (scenario (Fin (- (1 # 2))) 0 1) 1 (- 4096) eq_refl eq_refl).
Defined.

Lemma set_target_deterministic_witness :
  same_inputs (scenario (Fin (1 # 2)) 0 0) scenario_after_step /\
  command_of (set_target 4096 (Fin 5) (scenario (Fin (1 # 2)) 0 0)) =
  command_of (set_target 4096 (Fin 5) scenario_after_step).
Proof.
  assert (Hs : same_inputs (scenario (Fin (1 # 2)) 0 0) scenario_after_step)
    by (repeat split).
  split; [exact Hs |].
  exact (set_target_deterministic 4096 (Fin 5) (scenario (Fin (1 # 2)) 0 0)
           scenario_after_step Hs).
Defined.

(** ** Further properties of the template controller *)

Section Further.

Context {MotorDriverType EncoderType ControllerType : Type}.
Context {InputFilterType OutputFilterType RateLimitingFilterType : Type}.
Context `{MotorDriver MotorDriverType} `{Encoder EncoderType}.
Context `{PIDController ControllerType}.
Context `{Filter InputFilterType} `{Filter OutputFilterType}.
Context `{RateLimitingFilter RateLimitingFilterType}.

Variable PWM : Z.

Let controller : Type :=
  VelocityController MotorDriverType EncoderType ControllerType
                     InputFilterType OutputFilterType RateLimitingFilterType.

(** One step: what it leaves and what it appends. *)
Lemma set_target_step (d : float) (c c' : controller) :
  set_target PWM d c = Some (tt, c') ->
  deadband_threshold_ c' = deadband_threshold_ c /\
  minimum_output_ c' = minimum_output_ c /\
  exists (l : list Call) (v : Z),
    calls_ c' = calls_ c ++ l /\ length l = 7%nat /\
    driver_writes l = [v] /\
    motor_driver_ c' = set_motor_control (motor_driver_ c) v.
Proof.
  rewrite set_target_eq, filtered_output_eq. cbn.
  destruct (Float.to_int64 _) as [sp |]; [| discriminate]. cbn.
  destruct (scale_output _ _) as [v |]; [| discriminate].
  intros Hc. injection Hc as <-. cbn.
  split; [reflexivity | split; [reflexivity |]].
  eexists. exists v. rewrite <- app_assoc. cbn.
  split; [reflexivity |]. now repeat split.
Qed.

(** X1: a step in the floor branch (output not below the converted
    deadband, below the converted minimum, and not zero) writes the
    product, computed in [float] and truncated, of the converted
    [sign(u) * minimum_output] by the converted [PWM_RESOLUTION]: the
    floor does not depend on the magnitude of [u] and is multiplied by
    [PWM_RESOLUTION]. *)
Theorem floor_branch_command (d : float) (c : controller) (u : Q) :
  step_output d c = Some (Fin u) ->
  Float.ltb (Fin (Qabs u)) (Float.of_int (deadband_threshold_ c)) = false ->
  Float.ltb (Fin (Qabs u)) (Float.of_int (minimum_output_ c)) = true ->
  ~ u == 0 ->
  command_of (set_target PWM d c) =
  Float.to_int32
    (Float.mul (Float.of_int (Float.sgn (Fin u) * minimum_output_ c))
               (Float.of_int PWM)).
Proof.
  intros Hu Hd Hm Hz. rewrite command_of_set_target, Hu.
  now apply law_floor.
Qed.

(** X2: for a nonzero [PWM_RESOLUTION] whose conversion [p] is finite
    and a finite output [u], the command written is 0 exactly when
    [|u|] is below the converted deadband, or [|u|] is not below the
    converted minimum and the [float] product [u * p] has magnitude
    below 1. *)
Theorem zero_command_iff (d : float) (c : controller) (u p : Q) :
  PWM <> 0%Z ->
  Float.of_int PWM = Fin p ->
  step_output d c = Some (Fin u) ->
  (command_of (set_target PWM d c) = Some 0%Z <->
   Float.ltb (Fin (Qabs u)) (Float.of_int (deadband_threshold_ c)) = true \/
   (Float.ltb (Fin (Qabs u)) (Float.of_int (minimum_output_ c)) = false /\
    exists x, Float.mul (Fin u) (Fin p) = Fin x /\ Qabs x < 1)).
Proof.
  intros HP Hp Hu. rewrite command_of_set_target, Hu.
  now apply law_zero_iff.
Qed.

(** X3: the command is an odd function of the output: with the same
    thresholds, the opposite output gives the opposite command, except
    at the command [-2^31], whose opposite is not an [int32_t]. *)
Theorem opposite_output_opposite_command
  (d1 d2 : float) (c1 c2 : controller) (u : Q) (v : Z) :
  deadband_threshold_ c2 = deadband_threshold_ c1 ->
  minimum_output_ c2 = minimum_output_ c1 ->
  step_output d1 c1 = Some (Fin u) ->
  step_output d2 c2 = Some (Fin (- u)) ->
  command_of (set_target PWM d1 c1) = Some v ->
  v <> Int.int32_min ->
  command_of (set_target PWM d2 c2) = Some (- v)%Z.
Proof.
  intros Hd Hm Hu1 Hu2. rewrite !command_of_set_target, Hu1, Hu2, Hd, Hm.
  apply law_odd.
Qed.

(** X4: for [PWM_RESOLUTION >= 0] the command is monotone in the
    output: with the same thresholds, a larger finite output never
    gives a smaller command. *)
Theorem command_monotone
  (d1 d2 : float) (c1 c2 : controller) (u1 u2 : Q) (v1 v2 : Z) :
  (0 <= PWM)%Z ->
  deadband_threshold_ c2 = deadband_threshold_ c1 ->
  minimum_output_ c2 = minimum_output_ c1 ->
  step_output d1 c1 = Some (Fin u1) ->
  step_output d2 c2 = Some (Fin u2) ->
  u1 <= u2 ->
  command_of (set_target PWM d1 c1) = Some v1 ->
  command_of (set_target PWM d2 c2) = Some v2 ->
  (v1 <= v2)%Z.
Proof.
  intros HP Hd Hm Hu1 Hu2 Hle.
  rewrite !command_of_set_target, Hu1, Hu2, Hd, Hm.
  now apply law_monotone.
Qed.

(** X5: with [minimum_output <= 1] and a non-negative
    [PWM_RESOLUTION] that converts to [float] exactly (as every value
    up to 2^24 does), an output of magnitude at most 1 never gives a
    command beyond [PWM_RESOLUTION]. *)
Theorem unit_output_within_range
  (d : float) (c : controller) (u : Q) (cmd : Z) :
  (0 <= PWM)%Z ->
  Float.of_int PWM = Fin (inject_Z PWM) ->
  (minimum_output_ c <= 1)%Z ->
  step_output d c = Some (Fin u) ->
  Qabs u <= 1 ->
  command_of (set_target PWM d c) = Some cmd ->
  (Z.abs cmd <= PWM)%Z.
Proof.
  intros HP Hex Hmin Hu Hle. rewrite command_of_set_target, Hu.
  now apply law_range_input.
Qed.

(** X6: thresholds that are zero or negative disable the adjustment:
    the command is the truncation of the [float] product of [u] by the
    converted [PWM_RESOLUTION], for every output [u], finite or not. *)
Theorem nonpositive_thresholds_disable_adjustment
  (d : float) (c : controller) (u : float) :
  (deadband_threshold_ c <= 0)%Z ->
  (minimum_output_ c <= 0)%Z ->
  step_output d c = Some u ->
  command_of (set_target PWM d c) =
  Float.to_int32 (Float.mul u (Float.of_int PWM)).
Proof.
  intros Hd Hm Hu. rewrite command_of_set_target, Hu.
  now rewrite adjust_output_disabled.
Qed.

(** X7: a command is written only when the rate limiter's result and
    the filtered output are both finite. *)
Theorem command_needs_finite_signals (d : float) (c : controller) (v : Z) :
  command_of (set_target PWM d c) = Some v ->
  let y := get_velocity_radians_per_second (encoder_update (encoder_ c)) in
  let y' := fst (filter_update (input_filter_ c) y) in
  exists r u : Q,
    fst (rate_limiting_update (rate_limiting_filter_ c) d y') = Fin r /\
    step_output d c = Some (Fin u).
Proof.
  rewrite command_of_set_target, step_output_eq. cbn.
  destruct (Float.to_int64 _) as [sp |] eqn:Hsp; [| discriminate].
  intros Hv. apply to_int64_Some in Hsp. destruct Hsp as (r & Hr & _).
  apply scale_adjust_finite in Hv. destruct Hv as [u Hu].
  exists r, u. now rewrite Hu.
Qed.

(** X8: after a step, [get_setpoint] is the rate limiter's result with
    its fractional part dropped: same sign, magnitude smaller by less
    than 1. *)
Theorem setpoint_is_truncation (d : float) (c c' : controller) :
  set_target PWM d c = Some (tt, c') ->
  let y := get_velocity_radians_per_second (encoder_update (encoder_ c)) in
  let y' := fst (filter_update (input_filter_ c) y) in
  exists r : Q,
    fst (rate_limiting_update (rate_limiting_filter_ c) d y') = Fin r /\
    inject_Z (Z.abs (get_setpoint c')) <= Qabs r /\
    Qabs r < inject_Z (Z.abs (get_setpoint c') + 1) /\
    ((0 < get_setpoint c')%Z -> 0 < r) /\
    ((get_setpoint c' < 0)%Z -> r < 0).
Proof.
  rewrite set_target_eq, filtered_output_eq. cbn.
  destruct (Float.to_int64 _) as [sp |] eqn:Hsp; [| discriminate]. cbn.
  destruct (scale_output _ _) as [v |]; [| discriminate].
  intros Hc. injection Hc as <-. cbn.
  apply to_int64_Some in Hsp. destruct Hsp as (r & Hr & -> & _).
  exists r. split; [exact Hr |].
  destruct (trunc_abs_bounds r) as [Hlo Hhi].
  repeat split; try assumption; [apply trunc_pos | apply trunc_neg].
Qed.

(** X9: [get_measurement] is the encoder's velocity with its fractional
    part dropped, and is undefined when the velocity is not finite or
    does not fit an [int64_t]. *)
Theorem measurement_is_truncation (c : controller) (z : Z) :
  get_measurement c = Some z ->
  exists q : Q,
    get_velocity_radians_per_second (encoder_ c) = Fin q /\
    inject_Z (Z.abs z) <= Qabs q /\
    Qabs q < inject_Z (Z.abs z + 1) /\
    ((0 < z)%Z -> 0 < q) /\ ((z < 0)%Z -> q < 0) /\
    (Int.int64_min <= z <= Int.int64_max)%Z.
Proof.
  unfold get_measurement. intros Hz. apply to_int64_Some in Hz.
  destruct Hz as (q & Hq & -> & Hr). exists q. split; [exact Hq |].
  destruct (trunc_abs_bounds q) as [Hlo Hhi].
  unfold Int.in_int64 in Hr. apply andb_true_iff in Hr.
  destruct Hr as [Hmin Hmax]. apply Z.leb_le in Hmin, Hmax.
  repeat split; try assumption; [apply trunc_pos | apply trunc_neg].
Qed.

(** X10: [get_measurement] after a step does not resample: it is the
    truncation of the very sample the step read from the encoder and
    passed to the input filter. *)
Theorem measurement_after_step (d : float) (c c' : controller) :
  set_target PWM d c = Some (tt, c') ->
  let y := get_velocity_radians_per_second (encoder_update (encoder_ c)) in
  get_measurement c' = Float.to_int64 y /\
  exists (y' : float) (l : list Call),
    calls_ c' =
    calls_ c ++ EncoderUpdate :: EncoderGetVelocity y ::
                InputFilterUpdate y y' :: l.
Proof.
  rewrite set_target_eq, filtered_output_eq. cbn.
  destruct (Float.to_int64 _) as [sp |]; [| discriminate]. cbn.
  destruct (scale_output _ _) as [v |]; [| discriminate].
  intros Hc. injection Hc as <-. cbn.
  split; [reflexivity |]. rewrite <- app_assoc. cbn.
  eexists. eexists. reflexivity.
Qed.

(** X11: over any number of successive steps the thresholds never
    change, the calls already made stay, each step adds seven calls and
    exactly one of them is a write to the driver. *)
Theorem set_targets_invariants (ds : list float) (c c' : controller) :
  set_targets PWM ds c = Some (tt, c') ->
  deadband_threshold_ c' = deadband_threshold_ c /\
  minimum_output_ c' = minimum_output_ c /\
  exists l : list Call,
    calls_ c' = calls_ c ++ l /\
    length l = (7 * length ds)%nat /\
    length (driver_writes l) = length ds.
Proof.
  revert c. induction ds as [| d ds IH]; intros c.
  - cbn. intros Hc. injection Hc as <-.
    split; [reflexivity | split; [reflexivity |]].
    exists []. now rewrite app_nil_r.
  - cbn. unfold bind at 1.
    destruct (set_target PWM d c) as [[[] c1] |] eqn:Hstep; [| discriminate].
    intros Hrun. destruct (set_target_step d c c1 Hstep)
      as (Hd1 & Hm1 & l1 & v & Hl1 & Hlen1 & Hw1 & _).
    destruct (IH c1 Hrun) as (Hd & Hm & l & Hl & Hlen & Hw).
    split; [congruence | split; [congruence |]].
    exists (l1 ++ l). rewrite Hl, Hl1, <- app_assoc.
    split; [reflexivity |]. rewrite length_app, Hlen1, Hlen.
    split; [lia |].
    assert (Happ : forall a b, driver_writes (a ++ b) =
                               driver_writes a ++ driver_writes b).
    { induction a as [| [] a IHa]; intros b; cbn; rewrite ?IHa; reflexivity. }
    rewrite Happ, length_app, Hw1, Hw. reflexivity.
Qed.

(** X12: after any number of successive steps the driver has been
    handed exactly the commands of those steps, in order. *)
Theorem set_targets_driver (ds : list float) (c c' : controller) :
  set_targets PWM ds c = Some (tt, c') ->
  exists l : list Call,
    calls_ c' = calls_ c ++ l /\
    motor_driver_ c' =
    fold_left set_motor_control (driver_writes l) (motor_driver_ c).
Proof.
  revert c. induction ds as [| d ds IH]; intros c.
  - cbn. intros Hc. injection Hc as <-.
    exists []. now rewrite app_nil_r.
  - cbn. unfold bind at 1.
    destruct (set_target PWM d c) as [[[] c1] |] eqn:Hstep; [| discriminate].
    intros Hrun. destruct (set_target_step d c c1 Hstep)
      as (_ & _ & l1 & v & Hl1 & _ & Hw1 & Hdrv1).
    destruct (IH c1 Hrun) as (l & Hl & Hdrv).
    exists (l1 ++ l). rewrite Hl, Hl1, <- app_assoc.
    split; [reflexivity |].
    assert (Happ : forall a b, driver_writes (a ++ b) =
                               driver_writes a ++ driver_writes b).
    { induction a as [| [] a IHa]; intros b; cbn; rewrite ?IHa; reflexivity. }
    rewrite Happ, fold_left_app, Hw1, Hdrv, Hdrv1. reflexivity.
Qed.

End Further.

(** ** The further properties on the scenarios *)

Lemma floor_branch_command_witness :
  step_output (Fin 1) (scenario (Fin (- 1 # 16)) 0 300) =
    Some (Fin (- 1 # 16)) /\
  Float.ltb (Fin (Qabs (- 1 # 16)))
    (Float.of_int (deadband_threshold_ (scenario (Fin (- 1 # 16)) 0 300))) =
    false /\
  Float.ltb (Fin (Qabs (- 1 # 16)))
    (Float.of_int (minimum_output_ (scenario (Fin (- 1 # 16)) 0 300))) =
    true /\
  ~ (- 1 # 16) == 0 /\
  command_of (set_target 4096 (Fin 1) (scenario (Fin (- 1 # 16)) 0 300)) =
  Float.to_int32
    (Float.mul
       (Float.of_int
          (Float.sgn (Fin (- 1 # 16)) *
           minimum_output_ (scenario (Fin (- 1 # 16)) 0 300)))
       (Float.of_int 4096)).
Proof.
  assert (H3 : ~ (- 1 # 16) == 0) by (vm_compute; discriminate).
  split; [reflexivity | split; [reflexivity | split; [reflexivity |]]].
  split; [exact H3 |].
  exact (floor_branch_command 4096 (Fin 1) (scenario (Fin (- 1 # 16)) 0 300)
           (- 1 # 16) eq_refl eq_refl eq_refl H3).
Defined.

Lemma zero_command_iff_witness :
  4096%Z <> 0%Z /\
  Float.of_int 4096 = Fin 4096 /\
  step_output (Fin 1) (scenario (Fin (1 # 2)) 100 300) = Some (Fin (1 # 2)) /\
  (command_of (set_target 4096 (Fin 1) (scenario (Fin (1 # 2)) 100 300)) =
     Some 0%Z <->
   Float.ltb (Fin (Qabs (1 # 2)))
     (Float.of_int (deadband_threshold_ (scenario (Fin (1 # 2)) 100 300))) =
     true \/
   (Float.ltb (Fin (Qabs (1 # 2)))
      (Float.of_int (minimum_output_ (scenario (Fin (1 # 2)) 100 300))) =
      false /\
    exists x, Float.mul (Fin (1 # 2)) (Fin 4096) = Fin x /\ Qabs x < 1)).
Proof.
  assert (H1 : 4096%Z <> 0%Z) by discriminate.
  split; [exact H1 | split; [reflexivity | split; [reflexivity |]]].
  exact (zero_command_iff 4096 (Fin 1) (scenario (Fin (1 # 2)) 100 300)
           (1 # 2) 4096 H1 eq_refl eq_refl).
Defined.

Lemma opposite_output_opposite_command_witness :
  deadband_threshold_ (scenario (Fin (- (1 # 2))) 0 1) =
    deadband_threshold_ (scenario (Fin (1 # 2)) 0 1) /\
  minimum_output_ (scenario (Fin (- (1 # 2))) 0 1) =
    minimum_output_ (scenario (Fin (1 # 2)) 0 1) /\
  step_output (Fin 1) (scenario (Fin (1 # 2)) 0 1) = Some (Fin (1 # 2)) /\
  step_output (Fin 2) (scenario (Fin (- (1 # 2))) 0 1) =
    Some (Fin (- (1 # 2))) /\
  command_of (set_target 4096 (Fin 1) (scenario (Fin (1 # 2)) 0 1)) =
    Some 4096%Z /\
  4096%Z <> Int.int32_min /\
  command_of (set_target 4096 (Fin 2) (scenario (Fin (- (1 # 2))) 0 1)) =
    Some (- 4096)%Z.
Proof.
  assert (H6 : 4096%Z <> Int.int32_min) by discriminate.
  repeat (split; [first [reflexivity | exact H6] |]).
  exact (opposite_output_opposite_command 4096 (Fin 1) (Fin 2)
           (scenario (Fin (1 # 2)) 0 1) (scenario (Fin (- (1 # 2))) 0 1)
           (1 # 2) 4096 eq_refl eq_refl eq_refl eq_refl eq_refl H6).
Defined.

Lemma command_monotone_witness :
  (0 <= 4096)%Z /\
  deadband_threshold_ (scenario (Fin (1 # 2)) 0 1) =
    deadband_threshold_ (scenario (Fin (- 3 # 2)) 0 1) /\
  minimum_output_ (scenario (Fin (1 # 2)) 0 1) =
    minimum_output_ (scenario (Fin (- 3 # 2)) 0 1) /\
  step_output (Fin 1) (scenario (Fin (- 3 # 2)) 0 1) =
    Some (Fin (- 3 # 2)) /\
  step_output (Fin 1) (scenario (Fin (1 # 2)) 0 1) = Some (Fin (1 # 2)) /\
  (- 3 # 2) <= (1 # 2) /\
  command_of (set_target 4096 (Fin 1) (scenario (Fin (- 3 # 2)) 0 1)) =
    Some (- 6144)%Z /\
  command_of (set_target 4096 (Fin 1) (scenario (Fin (1 # 2)) 0 1)) =
    Some 4096%Z /\
  (- 6144 <= 4096)%Z.
Proof.
  assert (H1 : (0 <= 4096)%Z) by lia.
  assert (H6 : (- 3 # 2) <= (1 # 2)) by (vm_compute; discriminate).
  repeat (split; [first [reflexivity | exact H1 | exact H6] |]).
  exact (command_monotone 4096 (Fin 1) (Fin 1)
           (scenario (Fin (- 3 # 2)) 0 1) (scenario (Fin (1 # 2)) 0 1)
           (- 3 # 2) (1 # 2) (- 6144) 4096
           H1 eq_refl eq_refl eq_refl eq_refl H6 eq_refl eq_refl).
Defined.

Lemma unit_output_within_range_witness :
  (0 <= 4096)%Z /\
  Float.of_int 4096 = Fin (inject_Z 4096) /\
  (minimum_output_ (scenario (Fin (1 # 2)) 0 1) <= 1)%Z /\
  step_output (Fin 1) (scenario (Fin (1 # 2)) 0 1) = Some (Fin (1 # 2)) /\
  Qabs (1 # 2) <= 1 /\
  command_of (set_target 4096 (Fin 1) (scenario (Fin (1 # 2)) 0 1)) =
    Some 4096%Z /\
  (Z.abs 4096 <= 4096)%Z.
Proof.
  assert (H1 : (0 <= 4096)%Z) by (vm_compute; discriminate).
  assert (H2 : (minimum_output_ (scenario (Fin (1 # 2)) 0 1) <= 1)%Z)
    by (vm_compute; discriminate).
  assert (H4 : Qabs (1 # 2) <= 1) by (vm_compute; discriminate).
  repeat (split; [first [reflexivity | exact H1 | exact H2 | exact H4] |]).
  exact (unit_output_within_range 4096 (Fin 1) (scenario (Fin (1 # 2)) 0 1)
           (1 # 2) 4096 H1 eq_refl H2 eq_refl H4 eq_refl).
Defined.

Lemma nonpositive_thresholds_disable_adjustment_witness :
  (deadband_threshold_ (scenario (Fin (- 3 # 2)) 0 (-5)) <= 0)%Z /\
  (minimum_output_ (scenario (Fin (- 3 # 2)) 0 (-5)) <= 0)%Z /\
  step_output (Fin 1) (scenario (Fin (- 3 # 2)) 0 (-5)) =
    Some (Fin (- 3 # 2)) /\
  command_of (set_target 4096 (Fin 1) (scenario (Fin (- 3 # 2)) 0 (-5))) =
  Float.to_int32 (Float.mul (Fin (- 3 # 2)) (Float.of_int 4096)).
Proof.
  assert (H1 : (deadband_threshold_ (scenario (Fin (- 3 # 2)) 0 (-5)) <= 0)%Z)
    by (vm_compute; discriminate).
  assert (H2 : (minimum_output_ (scenario (Fin (- 3 # 2)) 0 (-5)) <= 0)%Z)
    by (vm_compute; discriminate).
  split; [exact H1 | split; [exact H2 | split; [reflexivity |]]].
  exact (nonpositive_thresholds_disable_adjustment 4096 (Fin 1)
           (scenario (Fin (- 3 # 2)) 0 (-5)) (Fin (- 3 # 2)) H1 H2 eq_refl).
Defined.

Lemma command_needs_finite_signals_witness :
  command_of (set_target 4096 (Fin (5 # 2)) scenario_after_two_steps) =
    Some 4096%Z /\
  exists r u : Q,
    fst (rate_limiting_update (rate_limiting_filter_ scenario_after_two_steps)
           (Fin (5 # 2)) (Fin 0)) = Fin r /\
    step_output (Fin (5 # 2)) scenario_after_two_steps = Some (Fin u).
Proof.
  split; [reflexivity |].
  exact (command_needs_finite_signals 4096 (Fin (5 # 2))
           scenario_after_two_steps 4096 eq_refl).
Defined.

Lemma setpoint_is_truncation_witness :
  set_target 4096 (Fin (5 # 2)) scenario_after_two_steps =
    Some (tt, scenario_after_three_steps) /\
  exists r : Q,
    fst (rate_limiting_update (rate_limiting_filter_ scenario_after_two_steps)
           (Fin (5 # 2)) (Fin 0)) = Fin r /\
    inject_Z (Z.abs (get_setpoint scenario_after_three_steps)) <= Qabs r /\
    Qabs r < inject_Z (Z.abs (get_setpoint scenario_after_three_steps) + 1) /\
    ((0 < get_setpoint scenario_after_three_steps)%Z -> 0 < r) /\
    ((get_setpoint scenario_after_three_steps < 0)%Z -> r < 0).
Proof.
  assert (Hs : set_target 4096 (Fin (5 # 2)) scenario_after_two_steps =
    Some (tt, scenario_after_three_steps))
    by (vm_compute; reflexivity).
  split; [exact Hs |].
  exact (setpoint_is_truncation 4096 (Fin (5 # 2)) scenario_after_two_steps
           scenario_after_three_steps Hs).
Defined.

Lemma measurement_is_truncation_witness :
  get_measurement scenario_reverse = Some (- 3)%Z /\
  exists q : Q,
    get_velocity_radians_per_second (encoder_ scenario_reverse) = Fin q /\
    inject_Z (Z.abs (- 3)) <= Qabs q /\
    Qabs q < inject_Z (Z.abs (- 3) + 1) /\
    ((0 < - 3)%Z -> 0 < q) /\ ((- 3 < 0)%Z -> q < 0) /\
    (Int.int64_min <= - 3 <= Int.int64_max)%Z.
Proof.
  split; [reflexivity |].
  exact (measurement_is_truncation scenario_reverse (- 3) eq_refl).
Defined.

Lemma measurement_after_step_witness :
  set_target 4096 (Fin (5 # 2)) scenario_after_two_steps =
    Some (tt, scenario_after_three_steps) /\
  get_measurement scenario_after_three_steps =
    Float.to_int64
      (get_velocity_radians_per_second
         (encoder_update (encoder_ scenario_after_two_steps))) /\
  exists (y' : float) (l : list Call),
    calls_ scenario_after_three_steps =
    calls_ scenario_after_two_steps ++
    EncoderUpdate ::
    EncoderGetVelocity
      (get_velocity_radians_per_second
         (encoder_update (encoder_ scenario_after_two_steps))) ::
    InputFilterUpdate
      (get_velocity_radians_per_second
         (encoder_update (encoder_ scenario_after_two_steps))) y' :: l.
Proof.
  assert (Hs : set_target 4096 (Fin (5 # 2)) scenario_after_two_steps =
               Some (tt, scenario_after_three_steps))
    by (vm_compute; reflexivity).
  split; [exact Hs |].
  exact (measurement_after_step 4096 (Fin (5 # 2)) scenario_after_two_steps
           scenario_after_three_steps Hs).
Defined.

Lemma set_targets_invariants_witness :
  set_targets 4096 [Fin 1; Fin 2; Fin (5 # 2)] (scenario (Fin (1 # 2)) 0 1) =
    Some (tt, scenario_after_three_steps) /\
  deadband_threshold_ scenario_after_three_steps =
    deadband_threshold_ (scenario (Fin (1 # 2)) 0 1) /\
  minimum_output_ scenario_after_three_steps =
    minimum_output_ (scenario (Fin (1 # 2)) 0 1) /\
  exists l : list Call,
    calls_ scenario_after_three_steps =
      calls_ (scenario (Fin (1 # 2)) 0 1) ++ l /\
    length l = (7 * length [Fin 1; Fin 2; Fin (5 # 2)])%nat /\
    length (driver_writes l) = length [Fin 1; Fin 2; Fin (5 # 2)].
Proof.
  assert (Hs : set_targets 4096 [Fin 1; Fin 2; Fin (5 # 2)] (scenario (Fin (1 # 2)) 0 1) =
    Some (tt, scenario_after_three_steps))
    by (vm_compute; reflexivity).
  split; [exact Hs |].
  exact (set_targets_invariants 4096 [Fin 1; Fin 2; Fin (5 # 2)]
           (scenario (Fin (1 # 2)) 0 1) scenario_after_three_steps Hs).
Defined.

Lemma set_targets_driver_witness :
  set_targets 4096 [Fin 1; Fin 2; Fin (5 # 2)] (scenario (Fin (1 # 2)) 0 1) =
    Some (tt, scenario_after_three_steps) /\
  exists l : list Call,
    calls_ scenario_after_three_steps =
      calls_ (scenario (Fin (1 # 2)) 0 1) ++ l /\
    motor_driver_ scenario_after_three_steps =
    fold_left set_motor_control (driver_writes l)
              (motor_driver_ (scenario (Fin (1 # 2)) 0 1)).
Proof.
  assert (Hs : set_targets 4096 [Fin 1; Fin 2; Fin (5 # 2)] (scenario (Fin (1 # 2)) 0 1) =
    Some (tt, scenario_after_three_steps))
    by (vm_compute; reflexivity).
  split; [exact Hs |].
  exact (set_targets_driver 4096 [Fin 1; Fin 2; Fin (5 # 2)]
           (scenario (Fin (1 # 2)) 0 1) scenario_after_three_steps Hs).
Defined.
